(** * datasets/biaobei48000.py: preprocessing of the Biaobei 48 kHz corpus

    A shallow embedding of [parse_trn], [build_from_path] and
    [_process_utterance].  Python [str] values are sequences of Unicode code
    points, Python [int] values are [Z], samples are rationals with the IEEE
    specials under a rounding that is a parameter, the output directory is a
    finite map from paths to saved arrays, and [util.audio], the
    two-dimensional arrays, [hparams] and the readable text files are
    interfaces. *)

From Stdlib Require Import ZArith NArith QArith Qabs Qround Lqa Lia List
  String Ascii Sorted.
From stdpp Require Import base list gmap.
From Equations Require Import Equations.
Import ListNotations.

Open Scope N_scope.

(** ** Python strings *)

Module PyStr.

(** A character is a Unicode code point; a [str] is a sequence of them. *)
Definition char := N.
Definition str := list char.

Definition NL : char := 0x0A.
Definition TAB : char := 0x09.
Definition SLASH : char := 0x2F.

(** A string literal of the source, as code points. *)
Definition lit (s : string) : str :=
  map N_of_ascii (list_ascii_of_string s).

(** [str.isspace] for one character (CPython's [_PyUnicode_IsWhitespace]):
    bidirectional type WS, B or S, or category Zs. *)
Definition isspace (c : char) : bool :=
  ((0x09 <=? c) && (c <=? 0x0D)) || ((0x1C <=? c) && (c <=? 0x20))
  || (c =? 0x85) || (c =? 0xA0) || (c =? 0x1680)
  || ((0x2000 <=? c) && (c <=? 0x200A))
  || (c =? 0x2028) || (c =? 0x2029) || (c =? 0x202F) || (c =? 0x205F)
  || (c =? 0x3000).

(** [s.lstrip()], [s.rstrip()] and [s.strip()] without argument. *)
Fixpoint lstrip (s : str) : str :=
  match s with
  | [] => []
  | c :: s' => if isspace c then lstrip s' else s
  end.

Definition rstrip (s : str) : str := rev (lstrip (rev s)).

Definition strip (s : str) : str := lstrip (rstrip s).

(** [s.split(sep)] for a one-character separator: the fields between the
    occurrences of [sep]; never the empty list. *)
Fixpoint split (sep : char) (s : str) : list str :=
  match s with
  | [] => [[]]
  | c :: s' =>
      if c =? sep then [] :: split sep s'
      else match split sep s' with
           | w :: ws => (c :: w) :: ws
           | [] => [[c]]
           end
  end.

(** [posixpath.join(a, b)]: an absolute [b] replaces [a]; otherwise the
    two are glued with exactly one separator unless [a] is empty or already
    ends with one. *)
Definition startswith (c : char) (s : str) : bool :=
  match s with
  | d :: _ => d =? c
  | [] => false
  end.

Definition endswith (c : char) (s : str) : bool :=
  match last s with
  | Some d => d =? c
  | None => false
  end.

Definition join2 (a b : str) : str :=
  if startswith SLASH b then b
  else if match a with [] => true | _ => endswith SLASH a end then a ++ b
  else a ++ SLASH :: b.

(** [os.path.join(a, *p)]. *)
Definition join (a : str) (p : list str) : str := fold_left join2 p a.

End PyStr.
Export PyStr.

(** ** Exceptions and results *)

Inductive exn :=
| IndexError
| ValueError
| OSError (path : str)
| AudioError (path : str).

Inductive result (A : Type) :=
| Ok (a : A)
| Raised (e : exn).
Arguments Ok {A} a.
Arguments Raised {A} e.

(** ** The transcription file *)

Module Trn.

(** An open text file is the text that is still to be read; [f.readline()]
    returns the next line with its newline (the empty string at the end of
    the file) and the file after it. *)
Fixpoint readline (f : str) : str * str :=
  match f with
  | [] => ([], [])
  | c :: f' =>
      if c =? NL then ([c], f')
      else let (l, r) := readline f' in (c :: l, r)
  end.

(** [l[0]]. *)
Definition getitem0 {A} (l : list A) : result A :=
  match l with
  | x :: _ => Ok x
  | [] => Raised IndexError
  end.

(** The [while line:] loop of [parse_trn].  [line] is the stripped line read
    last, [f] the file after it, [trns] the entries appended so far.  The
    loop ends: a read at the end of the file returns the empty line. *)
Equations? parse_loop (line : str) (f : str) (trns : list (str * str))
  : result (list (str * str))
  by wf (length f + match line with [] => 0 | _ => 1 end)%nat lt :=
  parse_loop [] f trns := Ok trns;
  parse_loop (c :: l) f trns with getitem0 (split TAB (c :: l)) => {
    | Raised e := Raised e;
    | Ok idx :=
        parse_loop (strip (fst (readline (snd (readline f)))))
                   (snd (readline (snd (readline f))))
                   (trns ++ [(idx, strip (fst (readline f)))]) }.
Proof.
  assert (Hle : forall g, (length (snd (readline g)) <= length g)%nat).
  { induction g as [|d g IH]; simpl; [lia|].
    destruct (d =? NL); simpl; [lia|].
    destruct (readline g); simpl in *; lia. }
  destruct f as [|d f].
  - simpl. lia.
  - pose proof (Hle (snd (readline (d :: f)))) as H2.
    assert (H1 : (length (snd (readline (d :: f))) < length (d :: f))%nat).
    { simpl. pose proof (Hle f). destruct (d =? NL); simpl; [lia|].
      destruct (readline f); simpl in *; lia. }
    destruct (strip _); lia.
Qed.

(** The body of [parse_trn] under [with open(trn_file) as f], on the text
    of the file. *)
Definition parse_text (text : str) : result (list (str * str)) :=
  parse_loop (strip (fst (readline text))) (snd (readline text)) [].

End Trn.

(** ** Samples and their arithmetic *)

(** Floating-point arithmetic computes the exact result and rounds it to a
    number of the format.  The format is that of the array [load_wav]
    returns; of its rounding only the laws of IEEE rounding to nearest are
    used: it respects equality and order, keeps the numbers it produces,
    commutes with negation and keeps 1.  Overflow and the sign of zero are
    not modelled. *)
Class Rounding := {
  rnd : Q -> Q;
  rnd_proper : forall x y, (x == y)%Q -> (rnd x == rnd y)%Q;
  rnd_mono : forall x y, (x <= y)%Q -> (rnd x <= rnd y)%Q;
  rnd_idem : forall x, (rnd (rnd x) == rnd x)%Q;
  rnd_opp : forall x, (rnd (- x) == - rnd x)%Q;
  rnd_one : (rnd 1 == 1)%Q }.

Module Np.

(** A sample is a rational number or one of the IEEE specials. *)
Inductive float :=
| Fin (q : Q)
| PInf
| NInf
| NaN.

(** A one-dimensional array of samples. *)
Definition ndarray := list float.

(** [np.abs] on one sample. *)
Definition fabs (x : float) : float :=
  match x with
  | Fin q => Fin (Qabs q)
  | PInf | NInf => PInf
  | NaN => NaN
  end.

(** The larger of two samples as [ndarray.max] computes it: a NaN wins. *)
Definition fmax (x y : float) : float :=
  match x, y with
  | NaN, _ | _, NaN => NaN
  | PInf, _ | _, PInf => PInf
  | NInf, z | z, NInf => z
  | Fin p, Fin q => if Qle_bool p q then Fin q else Fin p
  end.

(** [a.max()]: a reduction over a zero-size array raises [ValueError]. *)
Definition max (a : ndarray) : result float :=
  match a with
  | [] => Raised ValueError
  | x :: a' => Ok (fold_left fmax a' x)
  end.

Definition is_zero (q : Q) : bool := Qeq_bool q 0.
Definition is_neg (q : Q) : bool := negb (Qle_bool 0 q).

Section Arithmetic.
Context `{Rounding}.

(** [x / y] as NumPy computes it: a zero divisor does not raise, it yields
    an infinity or, for a zero dividend, NaN. *)
Definition fdiv (x y : float) : float :=
  match x, y with
  | NaN, _ | _, NaN => NaN
  | Fin p, Fin q =>
      if is_zero q then
        if is_zero p then NaN else if is_neg p then NInf else PInf
      else Fin (rnd (p / q))
  | Fin _, (PInf | NInf) => Fin 0
  | PInf, Fin q => if is_neg q then NInf else PInf
  | NInf, Fin q => if is_neg q then PInf else NInf
  | (PInf | NInf), (PInf | NInf) => NaN
  end.

(** [x * y]. *)
Definition fmul (x y : float) : float :=
  match x, y with
  | NaN, _ | _, NaN => NaN
  | Fin p, Fin q => Fin (rnd (p * q))
  | Fin p, PInf | PInf, Fin p =>
      if is_zero p then NaN else if is_neg p then NInf else PInf
  | Fin p, NInf | NInf, Fin p =>
      if is_zero p then NaN else if is_neg p then PInf else NInf
  | PInf, PInf | NInf, NInf => PInf
  | PInf, NInf | NInf, PInf => NInf
  end.

(** The literal [0.999] as a sample. *)
Definition c999 : Q := rnd (999 # 1000).

(** The rescaling statement of [_process_utterance]:
    [wav / np.abs(wav).max() * 0.999]. *)
Definition rescale (wav : ndarray) : result ndarray :=
  match max (map fabs wav) with
  | Raised e => Raised e
  | Ok m => Ok (map (fun x => fmul (fdiv x m) (Fin c999)) wav)
  end.

End Arithmetic.

End Np.

(** ** [%05d] *)

Module Fmt.

Definition ZERO : char := 0x30.
Definition MINUS : char := 0x2D.

Definition digit (d : N) : char := ZERO + d.

(** The decimal digits of a natural number, most significant first. *)
Equations? digits (n : N) : str by wf (N.to_nat n) lt :=
  digits n with decide (n < 10) => {
    | left _ := [digit n];
    | right _ := digits (n / 10) ++ [digit (n mod 10)] }.
Proof.
  assert (n / 10 < n) by (apply N.div_lt; lia). lia.
Qed.

(** Zeros on the left up to [width] characters. *)
Definition zfill (width : nat) (s : str) : str :=
  repeat ZERO (width - length s) ++ s.

(** ['%05d' % i]: the sign counts in the width and comes before the zeros. *)
Definition fmt_05d (i : Z) : str :=
  if (i <? 0)%Z then MINUS :: zfill 4 (digits (Z.to_N (- i)))
  else zfill 5 (digits (Z.to_N i)).

End Fmt.

(** ** Collaborators *)

(** Two-dimensional NumPy arrays, as far as the script uses them:
    [a.astype(np.float32)], [a.T] and [a.shape[1]]. *)
Class NdArray2 := {
  array2 : Type;
  astype_float32 : array2 -> array2;
  transposed : array2 -> array2;
  shape_1 : array2 -> Z }.

(** [util.audio].  Loading may raise (missing or unreadable file). *)
Class Audio `{NdArray2} := {
  load_wav : str -> result Np.ndarray;
  trim_silence : Np.ndarray -> Np.ndarray;
  spectrogram : Np.ndarray -> array2;
  melspectrogram : Np.ndarray -> array2 }.

(** [hparams.hparams]. *)
Class HParams := {
  max_frame_num : Z }.

(** The text files that can be read: what [open(path)] and the reads that
    follow deliver, the decoded text with its newlines translated, or the
    exception raised on the way (the file does not open, or a read fails
    to decode it). *)
Class TextFiles := {
  open_text : str -> result str }.

(** The output directory as [np.save] meets it: the exception a save to a
    path raises, if any (a directory that does not exist, a path that may
    not be written).  Whether a save fails depends on the path alone. *)
Class Disk := {
  save_error : str -> option exn }.

(** ** Effects: the files written, and exceptions *)

Module Eff.

Section Monad.
Context `{NdArray2} `{Disk}.

(** The output files: path to the array saved there. *)
Definition M (A : Type) : Type := gmap str array2 -> result A * gmap str array2.

Definition ret {A} (a : A) : M A := fun fs => (Ok a, fs).

(** An exception ends the computation; the files written so far stay. *)
Definition bind {A B} (c : M A) (k : A -> M B) : M B :=
  fun fs =>
    match c fs with
    | (Ok a, fs') => k a fs'
    | (Raised e, fs') => (Raised e, fs')
    end.

(** A computation without file effects. *)
Definition lift {A} (r : result A) : M A := fun fs => (r, fs).

(** [np.save(file, arr, allow_pickle=False)]: the extension [.npy] is
    added to a name that lacks it.  A save that fails raises when it opens
    the file and leaves the files as they are. *)
Definition np_save (file : str) (arr : array2) : M unit :=
  fun fs =>
    let file' := if decide (lit ".npy" `suffix_of` file) then file
                 else file ++ lit ".npy" in
    match save_error file' with
    | Some e => (Raised e, fs)
    | None => (Ok tt, <[file' := arr]> fs)
    end.

End Monad.

End Eff.
Import Eff.

Notation "'do' x <- c1 ;; c2" := (bind c1 (fun x => c2))
  (at level 10, x name, c1 at level 99, c2 at level 200, only parsing).

(** ** The script *)

Section Biaobei48000.
Context `{Rounding} `{Audio} `{HParams} `{Disk} `{TextFiles}.

(** [parse_trn(trn_file)]. *)
Definition parse_trn (trn_file : str) : result (list (str * str)) :=
  match open_text trn_file with
  | Raised e => Raised e
  | Ok text => Trn.parse_text text
  end.

(** A training record: [(spectrogram_filename, mel_filename, n_frames,
    text)]. *)
Definition record : Type := str * str * Z * str.

Definition spectrogram_filename (index : Z) : str :=
  lit "biaobei48000-spec-" ++ Fmt.fmt_05d index ++ lit ".npy".

Definition mel_filename (index : Z) : str :=
  lit "biaobei48000-mel-" ++ Fmt.fmt_05d index ++ lit ".npy".

(** [_process_utterance(out_dir, index, wav_path, pinyin)]; [None] is the
    skip sentinel. *)
Definition _process_utterance (out_dir : str) (index : Z)
    (wav_path pinyin : str) : M (option record) :=
  do wav <- lift (load_wav wav_path) ;;
  do wav <- lift (Np.rescale wav) ;;
  let wav := trim_silence wav in
  let spec := astype_float32 (spectrogram wav) in
  let n_frames := shape_1 spec in
  if (max_frame_num <? n_frames)%Z then ret None
  else
    let mel_spectrogram := astype_float32 (melspectrogram wav) in
    do _ <- np_save (join out_dir [spectrogram_filename index])
                 (transposed spec) ;;
    do _ <- np_save (join out_dir [mel_filename index])
                 (transposed mel_spectrogram) ;;
    ret (Some (spectrogram_filename index, mel_filename index, n_frames,
               pinyin)).

(** [partial(_process_utterance, out_dir, index, wav_file, pinyin)]. *)
Record task := {
  task_out_dir : str;
  task_index : Z;
  task_wav_file : str;
  task_pinyin : str }.

Definition call (t : task) : M (option record) :=
  _process_utterance (task_out_dir t) (task_index t) (task_wav_file t)
                     (task_pinyin t).

(** A future: the task it was made for and what the task did, a value or
    the exception it raised. *)
Record future := {
  future_task : task;
  future_outcome : result (option record) }.

(** [executor.submit(task)].  The pool is modelled by the schedule that
    runs every task when it is submitted; an exception of the task is kept
    in its future and does not stop the submitting loop. *)
Definition submit (t : task) : M future :=
  fun fs =>
    let (r, fs') := call t fs in
    (Ok {| future_task := t; future_outcome := r |}, fs').

(** [future.result()]: the value, or the task's exception raised again. *)
Definition future_result (fut : future) : result (option record) :=
  future_outcome fut.

(** The [for idx, pinyin in trn_ids] loop, on the variables [futures] and
    [index]. *)
Fixpoint submit_loop (in_dir out_dir : str) (trn_ids : list (str * str))
    (futures : list future) (index : Z) : M (list future * Z) :=
  match trn_ids with
  | [] => ret (futures, index)
  | (idx, pinyin) :: trn_ids' =>
      let wav_file := join in_dir [lit "Wave"; idx ++ lit ".wav"] in
      let t := {| task_out_dir := out_dir; task_index := index;
                  task_wav_file := wav_file; task_pinyin := pinyin |} in
      do fut <- submit t ;;
      submit_loop in_dir out_dir trn_ids' (futures ++ [fut]) (index + 1)%Z
  end.

(** [[future.result() for future in futures if future.result() is not
    None]]: the first exception ends the comprehension.  Both calls of
    [result()] on one future give the same outcome. *)
Fixpoint collect (futures : list future) : result (list record) :=
  match futures with
  | [] => Ok []
  | fut :: futures' =>
      match future_result fut with
      | Raised e => Raised e
      | Ok None => collect futures'
      | Ok (Some r) =>
          match collect futures' with
          | Raised e => Raised e
          | Ok l => Ok (r :: l)
          end
      end
  end.

(** [ProcessPoolExecutor(max_workers=n)]: a pool without workers is
    refused. *)
Definition ProcessPoolExecutor (max_workers : Z) : result unit :=
  if (max_workers <=? 0)%Z then Raised ValueError else Ok tt.

(** [build_from_path(in_dir, out_dir, num_workers, tqdm)].  [tqdm] wraps the
    list of futures that the comprehension iterates. *)
Definition build_from_path (in_dir out_dir : str) (num_workers : Z)
    (tqdm : list future -> list future) : M (list record) :=
  do executor <- lift (ProcessPoolExecutor num_workers) ;;
  let index := 1%Z in
  let trn_file :=
    join in_dir [lit "ProsodyLabeling"; lit "000001-010000.txt"] in
  do trn_ids <- lift (parse_trn trn_file) ;;
  do fi <- submit_loop in_dir out_dir trn_ids [] index ;;
  lift (collect (tqdm (fst fi))).

End Biaobei48000.

(** ** Vocabulary of the properties *)

(** The portion of [s] before the first [sep] (all of [s] when it has
    none): what the specification calls the identifier of an id line. *)
Fixpoint before (sep : char) (s : str) : str :=
  match s with
  | [] => []
  | c :: s' => if c =? sep then [] else c :: before sep s'
  end.

(** The text of one id/pronunciation pair, each line with its newline. *)
Definition pair_lines (p : str * str) : str :=
  fst p ++ NL :: snd p ++ [NL].

(** The text of a transcription file made of the given line pairs. *)
Definition trn_text (pairs : list (str * str)) : str :=
  flat_map pair_lines pairs.

(** The entry the parser makes of a pair. *)
Definition entry_of (p : str * str) : str * str :=
  (before TAB (strip (fst p)), strip (snd p)).

(** Both lines of a pair are single lines, and the id line is not blank. *)
Definition pair_ok (p : str * str) : Prop :=
  (NL ∉ fst p) /\ (NL ∉ snd p) /\ strip (fst p) <> [].

(** A sample that is a number at most [b], as [max] sees it. *)
Definition below (b : Q) (x : Np.float) : Prop :=
  x = Np.NInf \/ exists q, x = Np.Fin q /\ (q <= b)%Q.

(** The number a string of decimal digits stands for. *)
Definition decimal_value (s : str) : N :=
  fold_left (fun acc c => 10 * acc + (c - Fmt.ZERO)) s 0.

Definition is_digit (c : char) : Prop := Fmt.ZERO <= c <= Fmt.ZERO + 9.

(** What [posixpath.join] puts before a relative name. *)
Definition join_prefix (a : str) : str :=
  if match a with [] => true | _ => endswith SLASH a end then a
  else a ++ [SLASH].

Section Vocabulary.
Context `{Rounding} `{Audio} `{HParams} `{Disk}.

(** The audio file of an utterance. *)
Definition wav_file_of (in_dir idx : str) : str :=
  join in_dir [lit "Wave"; idx ++ lit ".wav"].

(** The task of the utterance [u] when it is given [index]. *)
Definition task_of (in_dir out_dir : str) (index : Z) (u : str * str)
  : task :=
  {| task_out_dir := out_dir; task_index := index;
     task_wav_file := wav_file_of in_dir (fst u); task_pinyin := snd u |}.

(** What a task returns or raises; the files already written play no part
    in it. *)
Definition outcome_of (t : task) : result (option record) :=
  fst (call t ∅).

Definition future_of (t : task) : future :=
  {| future_task := t; future_outcome := outcome_of t |}.

(** The record of an utterance that was neither skipped nor failed. *)
Definition kept (o : result (option record)) : option record :=
  match o with
  | Ok (Some r) => Some r
  | _ => None
  end.

(** The transcription file of a corpus. *)
Definition trn_file_of (in_dir : str) : str :=
  join in_dir [lit "ProsodyLabeling"; lit "000001-010000.txt"].

End Vocabulary.

(** ** A small corpus *)

(** Exact arithmetic: nothing is rounded. *)
Definition exact_arithmetic : Rounding :=
  {| rnd x := x;
     rnd_proper x y E := E;
     rnd_mono x y L := L;
     rnd_idem x := Qeq_refl x;
     rnd_opp x := Qeq_refl (- x);
     rnd_one := Qeq_refl 1 |}.

(** The spacing of float32 between 1/2 and 1, where 0.999 lies. *)
Definition ulp24 : Q := 1 # 16777216.

(** The multiple of [ulp24] nearest to [x >= 0], a half going up. *)
Definition nearest (x : Q) : Z := Qfloor (x / ulp24 + (1 # 2)).

Definition rnd_grid (x : Q) : Q :=
  if Qle_bool 0 x then inject_Z (nearest x) * ulp24
  else - (inject_Z (nearest (- x)) * ulp24).

(** Rounding to the nearest multiple of 2^-24: what float32 does to the
    numbers between 1/2 and 1 in absolute value. *)
Definition float32_near_one : Rounding.
Proof.
  assert (forall k : Z, Qfloor (inject_Z k + (1 # 2)) = k) as Hhalf.
  { intros k. unfold Qfloor, Qplus, inject_Z. simpl.
    rewrite Z.div_add_l by discriminate. apply Z.add_0_r. }
  assert (forall x y, (x == y)%Q -> nearest x = nearest y) as Hnear.
  { intros x y E. unfold nearest. apply Qfloor_comp. rewrite E. reflexivity. }
  assert (forall x, (0 <= x)%Q -> (0 <= nearest x)%Z) as Hpos.
  { intros x Hx. unfold nearest.
    change 0%Z with (Qfloor 0%Q). apply Qfloor_resp_le.
    assert (0 <= x / ulp24)%Q by (apply Qle_shift_div_l; [reflexivity|lra]).
    lra. }
  assert (forall k : Z, nearest (inject_Z k * ulp24) = k) as Hint.
  { intros k. unfold nearest. rewrite <- (Hhalf k) at 2.
    apply Qfloor_comp. unfold ulp24. field. }
  assert (forall x y, (x == y)%Q -> (rnd_grid x == rnd_grid y)%Q) as Hproper.
  { intros x y E. unfold rnd_grid.
    rewrite (Qleb_comp 0%Q 0%Q (Qeq_refl 0%Q) x y E).
    rewrite (Hnear x y E).
    assert (- x == - y)%Q as E' by (rewrite E; reflexivity).
    rewrite (Hnear _ _ E'). reflexivity. }
  assert (forall k : Z,
            (rnd_grid (inject_Z k * ulp24) == inject_Z k * ulp24)%Q) as Hfix.
  { intros k. unfold rnd_grid.
    destruct (Qle_bool 0 (inject_Z k * ulp24)) eqn:E.
    - rewrite Hint. reflexivity.
    - assert (- (inject_Z k * ulp24) == inject_Z (- k) * ulp24)%Q as E'
        by (rewrite inject_Z_opp; ring).
      rewrite (Hnear _ _ E'), Hint, inject_Z_opp. ring. }
  refine {| rnd := rnd_grid; rnd_proper := Hproper |}.
  - (* monotone *)
    intros x y L. unfold rnd_grid.
    assert (forall a b, (a <= b)%Q ->
              (inject_Z (nearest a) * ulp24
               <= inject_Z (nearest b) * ulp24)%Q) as Hm.
    { intros a b Hab. apply Qmult_le_compat_r; [|discriminate].
      rewrite <- Zle_Qle. apply Qfloor_resp_le.
      assert (a / ulp24 <= b / ulp24)%Q
        by (apply Qmult_le_compat_r; [assumption|discriminate]).
      lra. }
    assert (forall a, (0 <= a)%Q ->
              (0 <= inject_Z (nearest a) * ulp24)%Q) as Hp.
    { intros a Ha. apply Qmult_le_0_compat; [|discriminate].
      change 0%Q with (inject_Z 0). rewrite <- Zle_Qle. apply Hpos, Ha. }
    destruct (Qle_bool 0 x) eqn:Ex, (Qle_bool 0 y) eqn:Ey.
    + apply Hm, L.
    + apply Qle_bool_iff in Ex.
      assert (~ 0 <= y)%Q by (rewrite <- Qle_bool_iff; congruence). lra.
    + assert (~ 0 <= x)%Q as Nx by (rewrite <- Qle_bool_iff; congruence).
      apply Qle_bool_iff in Ey.
      pose proof (Hp (- x)%Q ltac:(lra)). pose proof (Hp y Ey). lra.
    + assert (- y <= - x)%Q as L' by lra.
      pose proof (Hm _ _ L'). lra.
  - (* idempotent *)
    intros x.
    assert (exists k, rnd_grid x == inject_Z k * ulp24)%Q as [k E].
    { unfold rnd_grid. destruct (Qle_bool 0 x).
      - eexists. reflexivity.
      - exists (- nearest (- x))%Z. rewrite inject_Z_opp. ring. }
    rewrite (Hproper _ _ E), Hfix. symmetry. exact E.
  - (* odd *)
    intros x. unfold rnd_grid.
    assert (- - x == x)%Q as Eo by ring.
    rewrite (Hnear _ _ Eo).
    destruct (Qle_bool 0 x) eqn:Ex, (Qle_bool 0 (- x)) eqn:Ey.
    + apply Qle_bool_iff in Ex, Ey.
      assert (x == 0)%Q as E0 by lra.
      assert (- x == 0)%Q as E1 by lra.
      rewrite (Hnear _ _ E0), (Hnear _ _ E1). reflexivity.
    + reflexivity.
    + ring.
    + assert (~ 0 <= x)%Q by (rewrite <- Qle_bool_iff; congruence).
      assert (~ 0 <= - x)%Q by (rewrite <- Qle_bool_iff; congruence). lra.
  - (* one *)
    reflexivity.
Defined.

(** A file with exactly one readable path. *)
Definition one_file (path text : str) : TextFiles :=
  {| open_text p := if decide (p = path) then Ok text
                    else Raised (OSError p) |}.

(** Two pairs in the layout of the corpus: the id, a tab and the annotated
    sentence; then a tab and the pinyin. *)
Definition sample_pairs : list (str * str) :=
  [ (lit "000001" ++ TAB :: [0x5361; 0x5C14; 0x666E] ++ lit "#2",
     TAB :: lit "ka2 er2 pu3");
    (lit "000002" ++ TAB :: [0x5047; 0x8BED] ++ lit "#1",
     TAB :: lit "jia2 yu3") ].

Definition sample_path : str := lit "in/ProsodyLabeling/000001-010000.txt".

(** Arrays as lists of rows. *)
Definition sample_arrays : NdArray2 :=
  {| array2 := list Np.ndarray;
     astype_float32 a := a;
     transposed a :=
       match a with
       | [] => []
       | r :: _ => imap (fun j _ => map (fun row => nth j row Np.NaN) a) r
       end;
     shape_1 a := Z.of_nat (length (hd [] a)) |}.

Fixpoint wav_lookup (wavs : list (str * Np.ndarray)) (p : str)
  : result Np.ndarray :=
  match wavs with
  | [] => Raised (OSError p)
  | (q, w) :: wavs' => if decide (q = p) then Ok w else wav_lookup wavs' p
  end.

(** Audio files by path; a spectrogram of one row with one frame for each
    sample. *)
Definition sample_audio (wavs : list (str * Np.ndarray))
  : @Audio sample_arrays :=
  {| load_wav := wav_lookup wavs;
     trim_silence w := w;
     spectrogram w := [w] : @array2 sample_arrays;
     melspectrogram w := [map Np.fabs w] : @array2 sample_arrays |}.

Definition sample_hparams (n : Z) : HParams := {| max_frame_num := n |}.

(** A directory in which every save succeeds. *)
Definition sample_disk : Disk := {| save_error _ := None |}.



Definition wav_1 : Np.ndarray := [Np.Fin (1 # 2); Np.Fin (- 2); Np.Fin 0].
Definition wav_silent : Np.ndarray := [Np.Fin 0; Np.Fin 0].

Definition sample_wavs : list (str * Np.ndarray) :=
  [(lit "in/Wave/000001.wav", wav_1); (lit "in/Wave/000002.wav", wav_silent)].

Definition sample_trn_ids : list (str * str) :=
  [(lit "000001", lit "ka2 er2 pu3"); (lit "000002", lit "jia2 yu3")].

Definition sample_files : TextFiles :=
  one_file sample_path (trn_text sample_pairs).

(** ** Vocabulary of the further properties *)

(** What every entry of [parse_trn] looks like: the identifier is not
    empty, has no tab and no newline and does not start with white space;
    the pronunciation has no newline and no white space at either end. *)
Definition entry_good (e : str * str) : Prop :=
  fst e <> [] /\ (TAB ∉ fst e) /\ (NL ∉ fst e) /\ lstrip (fst e) = fst e /\
  (NL ∉ snd e) /\ strip (snd e) = snd e.

(** A sample played [k] times louder. *)
Definition amplify (k : Q) (x : Np.float) : Np.float :=
  match x with
  | Np.Fin q => Np.Fin (k * q)
  | _ => x
  end.

(** The same sample: equal numbers, or the same special. *)
Definition sample_eq (x y : Np.float) : Prop :=
  match x, y with
  | Np.Fin p, Np.Fin q => (p == q)%Q
  | Np.PInf, Np.PInf | Np.NInf, Np.NInf | Np.NaN, Np.NaN => True
  | _, _ => False
  end.

(** What rescaling makes of a sample when the peak is infinite: [z] (a
    zero) of a number, NaN of the rest. *)
Definition silenced (z : Q) (x : Np.float) : Np.float :=
  match x with
  | Np.Fin _ => Np.Fin z
  | _ => Np.NaN
  end.

(** The two paths of an index in the output directory. *)
Definition spectrogram_path (out_dir : str) (index : Z) : str :=
  join out_dir [spectrogram_filename index].

Definition mel_path (out_dir : str) (index : Z) : str :=
  join out_dir [mel_filename index].

(** [s < t] on Python strings: by code points, a proper prefix first. *)
Fixpoint str_lt (s t : str) : bool :=
  match s, t with
  | _, [] => false
  | [], _ :: _ => true
  | c :: s', d :: t' => (c <? d) || ((c =? d) && str_lt s' t')
  end.

(** The record of the second utterance of the small corpus. *)
Definition sample_record_2 : record :=
  (lit "biaobei48000-spec-00002.npy", lit "biaobei48000-mel-00002.npy",
   2%Z, lit "jia2 yu3").

(** The run on the small corpus with a limit of two frames. *)
Definition sample_run : result (list record) * gmap str (list Np.ndarray) :=
  @build_from_path exact_arithmetic sample_arrays (sample_audio sample_wavs)
    (sample_hparams 2) sample_disk
    sample_files (lit "in") (lit "out") 1 (fun l => l) ∅.

(** * Properties *)

(** ** The definitions on small inputs *)

Example strip_ex :
  strip (lit "  ka2 er2 " ++ [TAB; NL]) = lit "ka2 er2".
Proof. reflexivity. Qed.

Example strip_ideographic_space_ex :
  strip (0x3000 :: lit "ka2" ++ [0xA0]) = lit "ka2".
Proof. reflexivity. Qed.

Example split_ex :
  split TAB (lit "000001" ++ TAB :: lit "x" ++ TAB :: lit "y")
  = [lit "000001"; lit "x"; lit "y"].
Proof. reflexivity. Qed.

Example split_empty_ex : split TAB [] = [[]].
Proof. reflexivity. Qed.

Example join_ex :
  join (lit "in") [lit "Wave"; lit "000001.wav"] = lit "in/Wave/000001.wav".
Proof. reflexivity. Qed.

Example join_slash_ex : join (lit "out/") [lit "a.npy"] = lit "out/a.npy".
Proof. reflexivity. Qed.

Example join_absolute_ex : join (lit "out") [lit "/tmp/a"] = lit "/tmp/a".
Proof. reflexivity. Qed.

Example readline_ex :
  Trn.readline (lit "ab" ++ NL :: lit "cd") = (lit "ab" ++ [NL], lit "cd").
Proof. reflexivity. Qed.

Example readline_eof_ex : Trn.readline [] = ([], []).
Proof. reflexivity. Qed.

Example fmt_05d_ex : Fmt.fmt_05d 7 = lit "00007".
Proof. reflexivity. Qed.

Example fmt_05d_wide_ex : Fmt.fmt_05d 123456 = lit "123456".
Proof. reflexivity. Qed.

Example fmt_05d_negative_ex : Fmt.fmt_05d (-42) = lit "-0042".
Proof. reflexivity. Qed.

Example parse_text_ex :
  Trn.parse_text (trn_text sample_pairs) = Ok sample_trn_ids.
Proof. vm_compute. reflexivity. Qed.

Example parse_text_blank_line_ex :
  Trn.parse_text (lit "000001" ++ TAB :: lit "x" ++ NL :: lit "ka2"
                  ++ [NL; NL] ++ lit "000002" ++ [NL] ++ lit "er2" ++ [NL])
  = Ok [(lit "000001", lit "ka2")].
Proof. vm_compute. reflexivity. Qed.

Example max_empty_ex : Np.max [] = Raised ValueError.
Proof. reflexivity. Qed.

Example max_nan_ex :
  Np.max [Np.Fin 1; Np.NaN; Np.Fin 3] = Ok Np.NaN.
Proof. reflexivity. Qed.

Example submit_loop_ex :
  let r := @submit_loop exact_arithmetic sample_arrays
             (sample_audio sample_wavs) (sample_hparams 2) sample_disk
             (lit "in") (lit "out") sample_trn_ids [] 1 ∅ in
  match fst r with
  | Ok (futures, index) =>
      map (fun fut => task_index (future_task fut)) futures = [1%Z; 2%Z]
      /\ index = 3%Z
      /\ map future_outcome futures
         = [Ok None;
            Ok (Some (lit "biaobei48000-spec-00002.npy",
                      lit "biaobei48000-mel-00002.npy", 2%Z,
                      lit "jia2 yu3"))]
  | Raised _ => False
  end.
Proof. vm_compute. auto. Qed.

Example build_from_path_no_workers_ex :
  fst (@build_from_path exact_arithmetic sample_arrays
         (sample_audio sample_wavs) (sample_hparams 2) sample_disk sample_files
         (lit "in") (lit "out") 0 (fun l => l) ∅) = Raised ValueError.
Proof. reflexivity. Qed.

(** ** Strings *)

Section StrFacts.

Lemma split_not_nil sep s : split sep s <> [].
Proof.
  induction s as [|c s IH]; simpl; [discriminate|].
  destruct (c =? sep); [discriminate|].
  destruct (split sep s); discriminate.
Qed.

Lemma split_head sep s : Trn.getitem0 (split sep s) = Ok (before sep s).
Proof.
  induction s as [|c s IH]; simpl; [reflexivity|].
  destruct (c =? sep); [reflexivity|].
  destruct (split sep s) as [|w ws] eqn:E; simpl in *.
  - exfalso. eapply split_not_nil; eauto.
  - congruence.
Qed.

Lemma before_no_sep sep s : sep ∉ s -> before sep s = s.
Proof.
  induction s as [|c s IH]; simpl; intros H; [reflexivity|].
  apply not_elem_of_cons in H as [H1 H2].
  destruct (N.eqb_spec c sep); [congruence|].
  rewrite IH; auto.
Qed.

Lemma before_app sep s t : sep ∉ s -> before sep (s ++ sep :: t) = s.
Proof.
  induction s as [|c s IH]; simpl; intros H.
  - rewrite N.eqb_refl. reflexivity.
  - apply not_elem_of_cons in H as [H1 H2].
    destruct (N.eqb_spec c sep); [congruence|].
    rewrite IH; auto.
Qed.

Lemma before_not_elem sep s : sep ∉ before sep s.
Proof.
  induction s as [|c s IH]; simpl.
  - apply not_elem_of_nil.
  - destruct (N.eqb_spec c sep).
    + apply not_elem_of_nil.
    + apply not_elem_of_cons. split; [congruence|assumption].
Qed.

Lemma before_split sep s :
  sep ∈ s -> exists t, s = before sep s ++ sep :: t.
Proof.
  induction s as [|c s IH]; simpl; intros H.
  - apply elem_of_nil in H. destruct H.
  - destruct (N.eqb_spec c sep) as [->|Hne].
    + exists s. reflexivity.
    + apply elem_of_cons in H as [H|H]; [congruence|].
      destruct (IH H) as [t Ht]. exists t. simpl. congruence.
Qed.

(** [lstrip] cuts a prefix of white space and stops at the first character
    that is not white space. *)
Lemma lstrip_spec s :
  exists w, s = w ++ lstrip s /\ Forall (fun c => isspace c = true) w
            /\ match lstrip s with
               | [] => True
               | c :: _ => isspace c = false
               end.
Proof.
  induction s as [|c s (w & Hs & Hw & Hl)]; simpl.
  - exists []. auto.
  - destruct (isspace c) eqn:E.
    + exists (c :: w). simpl. split; [congruence|]. split; [|assumption].
      constructor; assumption.
    + exists []. simpl. auto.
Qed.

Lemma lstrip_spaces w s :
  Forall (fun c => isspace c = true) w -> lstrip (w ++ s) = lstrip s.
Proof. induction 1 as [|c w Hc _ IH]; simpl; [|rewrite Hc]; auto. Qed.

Lemma rstrip_snoc_space s c : isspace c = true -> rstrip (s ++ [c]) = rstrip s.
Proof.
  intros H. unfold rstrip. rewrite rev_app_distr. simpl. rewrite H.
  reflexivity.
Qed.

Lemma rstrip_snoc_nonspace s c :
  isspace c = false -> rstrip (s ++ [c]) = s ++ [c].
Proof.
  intros H. unfold rstrip. rewrite rev_app_distr. simpl. rewrite H.
  simpl. rewrite rev_involutive. reflexivity.
Qed.

(** [rstrip] cuts a suffix of white space. *)
Lemma rstrip_spec s :
  exists w, s = rstrip s ++ w /\ Forall (fun c => isspace c = true) w.
Proof.
  destruct (lstrip_spec (rev s)) as (w & Hs & Hw & _).
  exists (rev w). split.
  - unfold rstrip. rewrite <- rev_app_distr, <- Hs, rev_involutive.
    reflexivity.
  - apply Forall_rev. assumption.
Qed.

Lemma strip_snoc_space s c : isspace c = true -> strip (s ++ [c]) = strip s.
Proof. intros H. unfold strip. rewrite rstrip_snoc_space; auto. Qed.

Lemma strip_not_elem c s : c ∉ s -> c ∉ strip s.
Proof.
  intros H Hin. apply H.
  destruct (rstrip_spec s) as (w & Hs & _).
  destruct (lstrip_spec (rstrip s)) as (v & Hr & _).
  rewrite Hs, Hr. apply elem_of_app. left. apply elem_of_app. right.
  exact Hin.
Qed.

End StrFacts.

(** ** The transcription parser *)

Section ParseFacts.
Import Trn.

Lemma isspace_NL : isspace NL = true.
Proof. reflexivity. Qed.

Lemma readline_line l rest :
  NL ∉ l -> readline (l ++ NL :: rest) = (l ++ [NL], rest).
Proof.
  induction l as [|c l IH]; simpl; intros H.
  - reflexivity.
  - apply not_elem_of_cons in H as [H1 H2].
    destruct (N.eqb_spec c NL); [congruence|].
    rewrite IH; auto.
Qed.

Lemma readline_eof l : NL ∉ l -> readline l = (l, []).
Proof.
  induction l as [|c l IH]; simpl; intros H.
  - reflexivity.
  - apply not_elem_of_cons in H as [H1 H2].
    destruct (N.eqb_spec c NL); [congruence|].
    rewrite IH; auto.
Qed.

Lemma readline_shorter f :
  (length (snd (readline f)) <= length f)%nat.
Proof.
  induction f as [|c f IH]; simpl; [lia|].
  destruct (c =? NL); simpl; [lia|].
  destruct (readline f); simpl in *; lia.
Qed.

(** One turn of the loop on a line that is not empty. *)
Lemma parse_loop_step c l f trns :
  parse_loop (c :: l) f trns =
  parse_loop (strip (fst (readline (snd (readline f)))))
             (snd (readline (snd (readline f))))
             (trns ++ [(before TAB (c :: l), strip (fst (readline f)))]).
Proof.
  rewrite parse_loop_equation_2. rewrite split_head. reflexivity.
Qed.

(** The loop never raises, and what it appends does not depend on the
    entries it starts from. *)
Lemma parse_loop_total line f :
  exists es, forall trns, parse_loop line f trns = Ok (trns ++ es).
Proof.
  remember (length f + match line with [] => 0 | _ => 1 end)%nat as n eqn:En.
  revert line f En.
  induction n as [n IH] using lt_wf_ind. intros line f En.
  destruct line as [|c l].
  - exists []. intros trns. rewrite parse_loop_equation_1, app_nil_r.
    reflexivity.
  - destruct (IH (length (snd (readline (snd (readline f))))
                  + match strip (fst (readline (snd (readline f)))) with
                    | [] => 0 | _ => 1 end)%nat) with
      (line := strip (fst (readline (snd (readline f)))))
      (f := snd (readline (snd (readline f)))) as [es Hes].
    + subst n. destruct f as [|d f].
      * simpl. lia.
      * pose proof (readline_shorter (snd (readline (d :: f)))).
        assert ((length (snd (readline (d :: f))) < length (d :: f))%nat).
        { simpl. pose proof (readline_shorter f).
          destruct (d =? NL); simpl; [lia|].
          destruct (readline f); simpl in *; lia. }
        destruct (strip _); lia.
    + reflexivity.
    + exists ((before TAB (c :: l), strip (fst (readline f))) :: es).
      intros trns. rewrite parse_loop_step, Hes, <- app_assoc.
      reflexivity.
Qed.

Lemma parse_text_total text : exists es, parse_text text = Ok es.
Proof.
  unfold parse_text.
  destruct (parse_loop_total (strip (fst (readline text)))
                             (snd (readline text))) as [es H].
  exists es. apply (H []).
Qed.

(** A line that is not blank starts an entry: its identifier is the
    stripped line up to the first tab, its pronunciation the next line
    stripped, and the parse goes on after that line. *)
Lemma parse_text_entry a f :
  NL ∉ a -> strip a <> [] ->
  exists es, parse_text (snd (readline f)) = Ok es /\
    parse_text (a ++ NL :: f) =
    Ok ((before TAB (strip a), strip (fst (readline f))) :: es).
Proof.
  intros Ha Hne.
  destruct (parse_text_total (snd (readline f))) as [es Hes].
  exists es. split; [exact Hes|].
  unfold parse_text in *. rewrite readline_line by assumption. simpl.
  rewrite strip_snoc_space by apply isspace_NL.
  destruct (strip a) as [|c l] eqn:E; [congruence|].
  rewrite parse_loop_step.
  destruct (parse_loop_total (strip (fst (readline (snd (readline f)))))
                             (snd (readline (snd (readline f)))))
    as [es' H'].
  rewrite H' in Hes. rewrite H'. simpl in *. congruence.
Qed.

(** The same for an id line that is the last line of the file and has no
    newline. *)
Lemma parse_text_entry_eof a :
  NL ∉ a -> strip a <> [] ->
  parse_text a = Ok [(before TAB (strip a), [])].
Proof.
  intros Ha Hne. unfold parse_text. rewrite readline_eof by assumption.
  simpl. destruct (strip a) as [|c l] eqn:E; [congruence|].
  rewrite parse_loop_step. simpl. rewrite parse_loop_equation_1.
  reflexivity.
Qed.

Lemma parse_text_nil : parse_text [] = Ok [].
Proof. reflexivity. Qed.

End ParseFacts.

Section PairFacts.
Import Trn.

Lemma lstrip_length s : (length (lstrip s) <= length s)%nat.
Proof.
  induction s as [|c s IH]; simpl; [lia|].
  destruct (isspace c); simpl; lia.
Qed.

Lemma lstrip_fixed c s : lstrip (c :: s) = c :: s -> isspace c = false.
Proof.
  simpl. destruct (isspace c); [|reflexivity].
  intros E. pose proof (lstrip_length s) as L. rewrite E in L.
  simpl in L. lia.
Qed.

Lemma strip_fixed s : strip s = s -> rstrip s = s /\ lstrip s = s.
Proof.
  unfold strip. intros E.
  destruct (rstrip_spec s) as (w & Hs & _).
  assert (w = []) as ->.
  { pose proof (lstrip_length (rstrip s)) as L. rewrite E in L.
    apply (f_equal (@length _)) in Hs. rewrite length_app in Hs.
    destruct w; [reflexivity|simpl in Hs; lia]. }
  rewrite app_nil_r in Hs. rewrite <- Hs in E. rewrite <- Hs. auto.
Qed.

(** Behind a text that [rstrip] keeps whole, [rstrip] cuts inside what
    follows. *)
Lemma rstrip_app_keep s t :
  s <> [] -> rstrip s = s ->
  exists r w, t = r ++ w /\ rstrip (s ++ t) = s ++ r.
Proof.
  intros Hs Hr. induction t as [|c t IH] using rev_ind.
  - exists [], []. rewrite !app_nil_r. auto.
  - destruct (isspace c) eqn:E.
    + destruct IH as (r & w & Ht & Hst). exists r, (w ++ [c]).
      split; [rewrite Ht, app_assoc; reflexivity|].
      rewrite app_assoc, rstrip_snoc_space; assumption.
    + exists (t ++ [c]), []. rewrite app_nil_r. split; [reflexivity|].
      rewrite app_assoc. apply rstrip_snoc_nonspace. assumption.
Qed.

(** When the text before the first tab is not empty and has no white space
    at either end, stripping the line leaves it as it is. *)
Lemma before_strip a :
  before TAB a <> [] -> strip (before TAB a) = before TAB a ->
  before TAB (strip a) = before TAB a.
Proof.
  intros Hne Hs. apply strip_fixed in Hs as [Hr Hl].
  assert (exists t, a = before TAB a ++ t /\ (t = [] \/ exists u, t = TAB :: u))
    as (t & Ha & Ht).
  { destruct (decide (TAB ∈ a)) as [Hin|Hin].
    - destruct (before_split _ _ Hin) as [u Hu]. eauto.
    - exists []. rewrite app_nil_r.
      split; [symmetry; apply before_no_sep; assumption|auto]. }
  set (i := before TAB a) in *.
  destruct (rstrip_app_keep i t Hne Hr) as (r & w & Htw & Hrs).
  assert (strip a = i ++ r) as ->.
  { unfold strip. rewrite Ha, Hrs.
    destruct i as [|c i'] eqn:Ei; [congruence|].
    apply lstrip_fixed in Hl. simpl. rewrite Hl. reflexivity. }
  destruct r as [|c r].
  - rewrite app_nil_r. apply before_no_sep. apply before_not_elem.
  - destruct Ht as [->|[u ->]]; [destruct w; discriminate|].
    simpl in Htw. injection Htw as <- _.
    apply before_app. apply before_not_elem.
Qed.

Lemma parse_text_pairs ps tail es :
  Forall pair_ok ps -> parse_text tail = Ok es ->
  parse_text (trn_text ps ++ tail) = Ok (map entry_of ps ++ es).
Proof.
  intros Hps Htail. induction Hps as [|[a b] ps (Ha & Hb & Hne) _ IH];
    simpl; [assumption|].
  unfold pair_lines. simpl in *. rewrite <- !app_assoc. simpl.
  rewrite <- app_assoc. simpl.
  destruct (parse_text_entry a (b ++ NL :: trn_text ps ++ tail) Ha Hne)
    as (es' & H1 & H2).
  rewrite readline_line in H1, H2 by assumption. simpl in H1, H2.
  rewrite strip_snoc_space in H2 by apply isspace_NL.
  rewrite H2. fold (trn_text ps) in IH. rewrite IH in H1.
  injection H1 as <-. reflexivity.
Qed.

(** A file of line pairs, with or without its last newline, parses to the
    entries of its pairs. *)
Lemma parse_text_trn pairs text :
  text = trn_text pairs \/ text ++ [NL] = trn_text pairs ->
  Forall pair_ok pairs ->
  parse_text text = Ok (map entry_of pairs).
Proof.
  intros [->|E] Hok.
  - rewrite <- (app_nil_r (trn_text pairs)), <- (app_nil_r (map _ _)).
    apply parse_text_pairs; [assumption|reflexivity].
  - destruct pairs as [|p0 ps0] using rev_ind.
    { destruct text; discriminate. }
    clear IHps0. destruct p0 as [a b].
    apply Forall_app in Hok as [Hps Hp].
    apply Forall_cons in Hp as [(Ha & Hb & Hne) _]. simpl in *.
    unfold trn_text in E. rewrite flat_map_app in E. simpl in E.
    unfold pair_lines in E. simpl in E. rewrite app_nil_r in E.
    assert (text = trn_text ps0 ++ a ++ NL :: b) as ->.
    { apply (app_inv_tail [NL]). rewrite E. unfold trn_text.
      rewrite <- !app_assoc. simpl. rewrite <- ?app_assoc. reflexivity. }
    rewrite map_app. apply parse_text_pairs; [assumption|].
    destruct (parse_text_entry a b Ha Hne) as (es & H1 & H2).
    rewrite readline_eof in H1, H2 by assumption. simpl in H1, H2.
    rewrite parse_text_nil in H1. injection H1 as <-. exact H2.
Qed.

End PairFacts.

(** *** Claims on [parse_trn] *)

Section ParseClaims.
Import Trn.
Context `{TextFiles}.

Lemma split_no_sep sep s : sep ∉ s -> split sep s = [s].
Proof.
  induction s as [|c s IH]; simpl; intros Hs; [reflexivity|].
  apply not_elem_of_cons in Hs as [H1 H2].
  destruct (N.eqb_spec c sep); [congruence|].
  rewrite IH by assumption. reflexivity.
Qed.

Lemma parse_trn_open trn_file text :
  open_text trn_file = Ok text -> parse_trn trn_file = parse_text text.
Proof. unfold parse_trn. intros ->. reflexivity. Qed.

(** C2 (as amended).  A transcription file made of N line pairs whose id
    lines are not blank parses, without error, to exactly N entries in file
    order.  The k-th identifier is the text before the first tab of the
    stripped k-th id line; it is the text before the first tab of the id
    line itself whenever that text is not empty and has no white space at
    either end.  The k-th pronunciation is the stripped line that follows.
    The last newline of the file may be missing. *)
Theorem parse_trn_line_pairs (trn_file text : str)
    (pairs : list (str * str)) :
  open_text trn_file = Ok text ->
  text = trn_text pairs \/ text ++ [NL] = trn_text pairs ->
  Forall pair_ok pairs ->
  exists trns,
    parse_trn trn_file = Ok trns /\
    length trns = length pairs /\
    forall k (a b : str), pairs !! k = Some (a, b) ->
      trns !! k = Some (before TAB (strip a), strip b) /\
      (before TAB a <> [] -> strip (before TAB a) = before TAB a ->
       trns !! k = Some (before TAB a, strip b)).
Proof.
  intros Hopen Htext Hok. exists (map entry_of pairs).
  rewrite (parse_trn_open _ _ Hopen), (parse_text_trn _ _ Htext Hok).
  split; [reflexivity|]. split; [apply length_map|].
  intros k a b Hk.
  assert (map entry_of pairs !! k = Some (before TAB (strip a), strip b))
    as Hent.
  { change (map entry_of pairs) with (entry_of <$> pairs).
    rewrite list_lookup_fmap, Hk. reflexivity. }
  split; [exact Hent|].
  intros Hne Hs. rewrite Hent, (before_strip a Hne Hs). reflexivity.
Qed.

(** C9.  An id line without a tab does not make the parser raise:
    splitting its stripped text on tab gives that text as the single field,
    so the whole stripped line is the identifier, the next line (stripped)
    is the pronunciation, and the parse goes on behind it. *)
Theorem parse_trn_id_line_without_tab (trn_file text : str)
    (ps : list (str * str)) (a f : str) :
  open_text trn_file = Ok text ->
  text = trn_text ps ++ a ++ NL :: f ->
  Forall pair_ok ps ->
  NL ∉ a -> TAB ∉ a -> strip a <> [] ->
  split TAB (strip a) = [strip a] /\
  getitem0 (split TAB (strip a)) = Ok (strip a) /\
  exists es,
    parse_text (snd (readline f)) = Ok es /\
    parse_trn trn_file =
    Ok (map entry_of ps ++ (strip a, strip (fst (readline f))) :: es).
Proof.
  intros Hopen -> Hps Hnl Htab Hne.
  assert (split TAB (strip a) = [strip a]) as Hsplit
    by (apply split_no_sep, strip_not_elem; assumption).
  split; [exact Hsplit|]. split; [rewrite Hsplit; reflexivity|].
  destruct (parse_text_entry a f Hnl Hne) as (es & H1 & H2).
  exists es. split; [exact H1|].
  rewrite (parse_trn_open _ _ Hopen).
  rewrite (parse_text_pairs ps _ _ Hps H2).
  rewrite (before_no_sep TAB (strip a)) by (apply strip_not_elem; assumption).
  reflexivity.
Qed.

(** C10.  When the file ends right behind an id line that is not blank
    (with or without that line's newline), the parser does not raise: the
    read of the pronunciation line happens at the end of the file and
    gives the empty string, the last entry pairs the identifier with the
    empty pronunciation, and the loop ends there. *)
Theorem parse_trn_odd_line_count (trn_file text : str)
    (ps : list (str * str)) (a : str) :
  open_text trn_file = Ok text ->
  text = trn_text ps ++ a \/ text = trn_text ps ++ a ++ [NL] ->
  Forall pair_ok ps ->
  NL ∉ a -> strip a <> [] ->
  snd (readline a) = [] /\ snd (readline (a ++ [NL])) = [] /\
  readline [] = ([], []) /\
  parse_trn trn_file =
  Ok (map entry_of ps ++ [(before TAB (strip a), [])]).
Proof.
  intros Hopen Htext Hps Hnl Hne.
  split; [rewrite readline_eof by assumption; reflexivity|].
  split; [rewrite readline_line by assumption; reflexivity|].
  split; [reflexivity|].
  rewrite (parse_trn_open _ _ Hopen).
  destruct Htext as [->| ->]; apply parse_text_pairs; try assumption.
  - apply parse_text_entry_eof; assumption.
  - destruct (parse_text_entry a [] Hnl Hne) as (es & H1 & H2).
    simpl in H1. rewrite parse_text_nil in H1. injection H1 as <-.
    exact H2.
Qed.

End ParseClaims.

Lemma sample_pairs_ok : Forall pair_ok sample_pairs.
Proof.
  repeat constructor; simpl;
    try (apply (bool_decide_unpack _); vm_compute; reflexivity);
    vm_compute; discriminate.
Defined.

Lemma parse_trn_line_pairs_witness :
  exists trns,
    @parse_trn (one_file sample_path (trn_text sample_pairs)) sample_path
    = Ok trns /\
    length trns = 2%nat /\
    forall k (a b : str), sample_pairs !! k = Some (a, b) ->
      trns !! k = Some (before TAB (strip a), strip b) /\
      (before TAB a <> [] -> strip (before TAB a) = before TAB a ->
       trns !! k = Some (before TAB a, strip b)).
Proof.
  apply (@parse_trn_line_pairs (one_file sample_path (trn_text sample_pairs))
           sample_path (trn_text sample_pairs) sample_pairs).
  - reflexivity.
  - left. reflexivity.
  - exact sample_pairs_ok.
Defined.

(** The claim as it was stated fails on an id line that starts with a tab:
    the line is not empty and contains a tab, the text before its first tab
    is empty, and the parser takes the stripped line as the identifier. *)
Lemma parse_trn_leading_tab_counterexample :
  let pairs := [(TAB :: lit "000001", lit "ka2")] in
  let H := one_file sample_path (trn_text pairs) in
  Forall (fun p => fst p <> [] /\ (TAB ∈ fst p) /\ (NL ∉ fst p)
                   /\ (NL ∉ snd p)) pairs /\
  parse_trn sample_path = Ok [(lit "000001", lit "ka2")] /\
  parse_trn sample_path <>
  Ok (map (fun p => (before TAB (fst p), strip (snd p))) pairs).
Proof.
  split; [|split].
  - repeat constructor; simpl;
      try discriminate;
      apply (bool_decide_unpack _); vm_compute; reflexivity.
  - vm_compute. reflexivity.
  - vm_compute. discriminate.
Qed.

Lemma parse_trn_id_line_without_tab_witness :
  let a := lit "000003 no tab here " in
  let f := TAB :: lit "san1" ++ [NL] in
  let text := trn_text sample_pairs ++ a ++ NL :: f in
  split TAB (strip a) = [strip a] /\
  Trn.getitem0 (split TAB (strip a)) = Ok (strip a) /\
  exists es,
    Trn.parse_text (snd (Trn.readline f)) = Ok es /\
    @parse_trn (one_file sample_path text) sample_path =
    Ok (map entry_of sample_pairs
        ++ (strip a, strip (fst (Trn.readline f))) :: es).
Proof.
  intros a f text.
  apply (@parse_trn_id_line_without_tab (one_file sample_path text)
           sample_path text sample_pairs a f).
  - reflexivity.
  - reflexivity.
  - exact sample_pairs_ok.
  - apply (bool_decide_unpack _). vm_compute. reflexivity.
  - apply (bool_decide_unpack _). vm_compute. reflexivity.
  - vm_compute. discriminate.
Defined.

Lemma parse_trn_odd_line_count_witness :
  let a := lit "000003" ++ TAB :: lit "x" in
  let text := trn_text sample_pairs ++ a in
  snd (Trn.readline a) = [] /\ snd (Trn.readline (a ++ [NL])) = [] /\
  Trn.readline [] = ([], []) /\
  @parse_trn (one_file sample_path text) sample_path =
  Ok (map entry_of sample_pairs ++ [(before TAB (strip a), [])]).
Proof.
  intros a text.
  apply (@parse_trn_odd_line_count (one_file sample_path text)
           sample_path text sample_pairs a).
  - reflexivity.
  - left. reflexivity.
  - exact sample_pairs_ok.
  - apply (bool_decide_unpack _). vm_compute. reflexivity.
  - vm_compute. discriminate.
Defined.

(** ** Rescaling *)

Section RescaleFacts.
Context `{Rounding}.
Import Np.
Open Scope Q_scope.

Lemma fmax_below b x y : below b (fmax x y) -> below b x /\ below b y.
Proof.
  unfold below.
  destruct x as [p| | |], y as [q| | |]; simpl;
    try (intros [E|(r & E & _)]; discriminate);
    try (intros Hb; split; [exact Hb || (left; reflexivity)
                           | exact Hb || (left; reflexivity)]).
  destruct (Qle_bool p q) eqn:E; intros [E'|(r & E' & Hr)];
    try discriminate; injection E' as <-.
  - apply Qle_bool_iff in E. split; right; eexists; split; eauto; lra.
  - assert (~ p <= q) by (rewrite <- Qle_bool_iff; congruence).
    split; right; eexists; split; eauto; lra.
Qed.

Lemma fold_fmax_below l x m :
  fold_left fmax l x = Fin m -> Forall (below m) (x :: l).
Proof.
  revert x. induction l as [|y l IH]; simpl; intros x E.
  - constructor; [|constructor]. right. exists m. split; [assumption|lra].
  - apply IH in E. apply Forall_cons in E as [Hxy Hl].
    apply fmax_below in Hxy as [Hx Hy].
    constructor; [assumption|constructor; assumption].
Qed.

(** When the largest absolute value is the number [m], every sample is a
    number between [-m] and [m]. *)
Lemma max_abs_fin wav m :
  max (map fabs wav) = Ok (Fin m) ->
  wav <> [] /\ Forall (fun x => exists q, x = Fin q /\ Qabs q <= m) wav.
Proof.
  destruct wav as [|x wav]; simpl; [discriminate|].
  intros E. injection E as E. split; [discriminate|].
  apply fold_fmax_below in E.
  change (fabs x :: map fabs wav) with (map fabs (x :: wav)) in E.
  rewrite Forall_map in E. eapply Forall_impl; [exact E|].
  intros [q| | |] [Hx|(r & Hx & Hr)]; try discriminate.
  injection Hx as <-. eauto.
Qed.

(** A list of numbers at most [b] that is not empty has a largest
    element, a number at most [b]. *)
Lemma fold_fmax_fin b l x :
  Forall (fun y => exists q, y = Fin q /\ q <= b) (x :: l) ->
  exists m, fold_left fmax l x = Fin m /\ m <= b.
Proof.
  revert x. induction l as [|y l IH]; intros x Hl.
  - apply Forall_cons in Hl as [(q & -> & Hq) _]. exists q. auto.
  - apply Forall_cons in Hl as [(p & -> & Hp) Hl].
    apply Forall_cons in Hl as [(q & -> & Hq) Hl].
    simpl. apply IH. constructor; [|assumption].
    destruct (Qle_bool p q); eauto.
Qed.

Lemma is_zero_pos m : 0 < m -> is_zero m = false.
Proof.
  intros Hm. unfold is_zero. destruct (Qeq_bool m 0) eqn:E; [|reflexivity].
  apply Qeq_bool_iff in E. lra.
Qed.

Lemma is_zero_eq m : m == 0 -> is_zero m = true.
Proof. intros Hm. apply Qeq_bool_iff. assumption. Qed.

Lemma rnd_zero : rnd 0 == 0.
Proof.
  pose proof (rnd_opp 0) as E.
  assert (rnd (- 0) == rnd 0) as E' by (apply rnd_proper; reflexivity).
  lra.
Qed.

(** The literal 0.999 is not negative and is a number of the format. *)
Lemma c999_nonneg : 0 <= c999.
Proof.
  unfold c999. rewrite <- rnd_zero. apply rnd_mono. discriminate.
Qed.

Lemma c999_kept : rnd c999 == c999.
Proof. apply rnd_idem. Qed.

(** One sample of a waveform whose peak is [m > 0], after rescaling. *)
Lemma rescale_sample q m :
  0 < m -> Qabs q <= m ->
  exists r, fmul (fdiv (Fin q) (Fin m)) (Fin c999) = Fin r
            /\ Qabs r <= c999.
Proof.
  intros Hm Hq. simpl. rewrite (is_zero_pos m Hm).
  eexists. split; [reflexivity|].
  apply Qabs_Qle_condition in Hq as [Hlo Hhi].
  assert (q / m <= 1) as Hhi1 by (apply Qle_shift_div_r; lra).
  assert (Qopp 1 <= q / m) as Hlo1 by (apply Qle_shift_div_l; lra).
  apply rnd_mono in Hhi1, Hlo1.
  pose proof rnd_one as E1. pose proof (rnd_opp 1) as E2.
  pose proof c999_nonneg as Hc.
  set (t := rnd (q / m)) in *.
  assert (0 <= (1 - t) * c999) as P1 by (apply Qmult_le_0_compat; lra).
  assert (0 <= (1 + t) * c999) as P2 by (apply Qmult_le_0_compat; lra).
  assert (- c999 <= t * c999 <= c999) as [Hl Hh] by (split; lra).
  apply rnd_mono in Hl, Hh.
  pose proof (rnd_opp c999) as E3. pose proof c999_kept as E4.
  apply Qabs_Qle_condition. split; lra.
Qed.

(** C6.  A waveform whose largest absolute sample value is a number
    [m > 0] (so no sample is infinite or NaN) is rescaled without error to
    a waveform of the same length in which every sample is a number of
    absolute value at most [c999]; so the largest absolute sample value of
    the result is at most [c999].  The bound [c999] is the literal 0.999
    as a sample, rounded as the samples are: the number 999/1000 in exact
    arithmetic, a number that can lie above 999/1000 otherwise. *)
Theorem rescale_peak_bound (wav : ndarray) (m : Q) :
  max (map fabs wav) = Ok (Fin m) -> 0 < m ->
  exists out,
    rescale wav = Ok out /\
    length out = length wav /\
    Forall (fun y => exists r, y = Fin r /\ Qabs r <= c999) out /\
    exists m', max (map fabs out) = Ok (Fin m') /\ m' <= c999.
Proof.
  intros Hmax Hm. unfold rescale. rewrite Hmax.
  eexists. split; [reflexivity|]. split; [apply length_map|].
  apply max_abs_fin in Hmax as [Hne Hall].
  assert (Forall (fun y => exists r, y = Fin r /\ Qabs r <= c999)
            (map (fun x => fmul (fdiv x (Fin m)) (Fin c999)) wav))
    as Hout.
  { rewrite Forall_map. eapply Forall_impl; [exact Hall|].
    intros x (q & -> & Hq). apply rescale_sample; assumption. }
  split; [exact Hout|].
  destruct wav as [|x wav]; [congruence|]. simpl map in *.
  destruct (fold_fmax_fin c999
              (map fabs (map (fun x => fmul (fdiv x (Fin m)) (Fin c999))
                             wav))
              (fabs (fmul (fdiv x (Fin m)) (Fin c999))))
    as (m' & E & Hm').
  - change (Forall (fun y => exists q, y = Fin q /\ q <= c999)
              (map fabs (fmul (fdiv x (Fin m)) (Fin c999)
                         :: map (fun x => fmul (fdiv x (Fin m)) (Fin c999))
                                wav))).
    rewrite Forall_map. eapply Forall_impl; [exact Hout|].
    intros y (r & -> & Hr). simpl. eauto.
  - exists m'. simpl. rewrite E. auto.
Qed.

(** The division of the rescaling statement on a silent waveform: every
    sample is zero, the divisor is zero, and every quotient is NaN. *)
Lemma rescale_silent (wav : ndarray) (m : Q) :
  max (map fabs wav) = Ok (Fin m) -> m == 0 ->
  Forall (fun x => exists q, x = Fin q /\ q == 0
                             /\ fdiv x (Fin m) = NaN) wav /\
  rescale wav = Ok (map (fun _ => NaN) wav).
Proof.
  intros Hmax Hm.
  assert (Forall (fun x => exists q, x = Fin q /\ q == 0
                                     /\ fdiv x (Fin m) = NaN) wav) as Hall.
  { apply max_abs_fin in Hmax as [_ Hall].
    eapply Forall_impl; [exact Hall|].
    intros x (q & -> & Hq). exists q. split; [reflexivity|].
    assert (q == 0) as Hq0.
    { apply Qabs_Qle_condition in Hq. lra. }
    split; [exact Hq0|]. simpl.
    rewrite (is_zero_eq m Hm), (is_zero_eq q Hq0). reflexivity. }
  split; [exact Hall|].
  unfold rescale. rewrite Hmax. f_equal.
  apply map_ext_Forall. eapply Forall_impl; [exact Hall|].
  intros x (q & -> & _ & E). rewrite E. reflexivity.
Qed.

End RescaleFacts.

(** The claim as it was stated fails in two ways.  An infinite sample
    makes the largest absolute value positive (infinite), and the rescaled
    waveform then holds a NaN, so its largest absolute value is NaN, not a
    number at most 0.999.  And where the samples are rounded as float32
    rounds them, the literal 0.999 becomes 16760439/16777216, which is
    more than 999/1000, and the rescaled peak of a waveform of finite
    samples with peak 2 is that number. *)
Lemma rescale_peak_above_counterexample :
  (Np.max (map Np.fabs [Np.Fin 1; Np.PInf]) = Ok Np.PInf /\
   exists out,
     @Np.rescale exact_arithmetic [Np.Fin 1; Np.PInf] = Ok out /\
     length out = 2%nat /\
     Np.max (map Np.fabs out) = Ok Np.NaN) /\
  (Np.max (map Np.fabs wav_1) = Ok (Np.Fin 2) /\
   exists out m',
     @Np.rescale float32_near_one wav_1 = Ok out /\
     Np.max (map Np.fabs out) = Ok (Np.Fin m') /\
     (m' == 16760439 # 16777216)%Q /\
     ~ (m' <= 999 # 1000)%Q).
Proof.
  split.
  - split; [reflexivity|]. eexists. split; [reflexivity|].
    split; reflexivity.
  - split; [reflexivity|]. eexists. eexists. split; [reflexivity|].
    split; [reflexivity|]. split; [vm_compute; reflexivity|].
    vm_compute. intros L. apply L. reflexivity.
Qed.

Lemma rescale_peak_bound_witness :
  exists out,
    @Np.rescale exact_arithmetic wav_1 = Ok out /\
    length out = length wav_1 /\
    Forall (fun y => exists r, y = Np.Fin r /\ (Qabs r <= 999 # 1000)%Q)
           out /\
    exists m', Np.max (map Np.fabs out) = Ok (Np.Fin m')
               /\ (m' <= 999 # 1000)%Q.
Proof.
  apply (@rescale_peak_bound exact_arithmetic wav_1 2%Q);
    [reflexivity|reflexivity].
Defined.

(** ** File names *)

Section FmtFacts.
Import Fmt.

Lemma digits_small n : n < 10 -> digits n = [digit n].
Proof.
  intros Hn. rewrite digits_equation_1. destruct (decide (n < 10)); [|lia].
  reflexivity.
Qed.

Lemma digits_large n :
  10 <= n -> digits n = digits (n / 10) ++ [digit (n mod 10)].
Proof.
  intros Hn. rewrite digits_equation_1. destruct (decide (n < 10)); [lia|].
  reflexivity.
Qed.

Lemma decimal_value_snoc s c :
  decimal_value (s ++ [c]) = 10 * decimal_value s + (c - ZERO).
Proof. unfold decimal_value. rewrite fold_left_app. reflexivity. Qed.

Lemma digit_value d : digit d - ZERO = d.
Proof. unfold digit. rewrite N.add_comm. apply N.add_sub. Qed.

Lemma decimal_value_digit d : decimal_value [digit d] = d.
Proof. unfold decimal_value. simpl. apply digit_value. Qed.

(** [digits] writes the number it is given. *)
Lemma decimal_value_digits n : decimal_value (digits n) = n.
Proof.
  induction n as [n IH] using (well_founded_induction N.lt_wf_0).
  destruct (decide (n < 10)) as [Hn|Hn].
  - rewrite digits_small by assumption. apply decimal_value_digit.
  - rewrite digits_large by lia. rewrite decimal_value_snoc.
    rewrite IH by (apply N.div_lt; lia).
    rewrite digit_value. symmetry. apply N.div_mod. discriminate.
Qed.

Lemma digits_are_digits n : Forall is_digit (digits n).
Proof.
  induction n as [n IH] using (well_founded_induction N.lt_wf_0).
  destruct (decide (n < 10)) as [Hn|Hn].
  - rewrite digits_small by assumption. constructor; [|constructor].
    unfold is_digit, digit. lia.
  - rewrite digits_large by lia. apply Forall_app. split.
    + apply IH. apply N.div_lt; lia.
    + constructor; [|constructor]. unfold is_digit, digit.
      assert (n mod 10 < 10) by (apply N.mod_lt; discriminate).
      set (r := n mod 10) in *. clearbody r. lia.
Qed.

Lemma digits_not_nil n : digits n <> [].
Proof.
  destruct (decide (n < 10)) as [Hn|Hn].
  - rewrite digits_small by assumption. discriminate.
  - rewrite digits_large by lia. destruct (digits (n / 10)); discriminate.
Qed.

(** No leading zero, except for the number zero itself. *)
Lemma digits_head n c s : digits n = c :: s -> 0 < n -> c <> ZERO.
Proof.
  revert c s.
  induction n as [n IH] using (well_founded_induction N.lt_wf_0).
  intros c s E Hpos. destruct (decide (n < 10)) as [Hn|Hn].
  - rewrite digits_small in E by assumption. injection E as <- _.
    unfold digit, ZERO. lia.
  - rewrite digits_large in E by lia.
    destruct (digits (n / 10)) as [|c' s'] eqn:E'.
    + exfalso. eapply digits_not_nil; eauto.
    + simpl in E. injection E as <- _.
      apply (IH (n / 10)) with (s := s'); [apply N.div_lt; lia|assumption|].
      apply N.div_str_pos. lia.
Qed.

Lemma digits_length n k :
  (0 < k)%nat -> n < 10 ^ N.of_nat k -> (length (digits n) <= k)%nat.
Proof.
  revert n. induction k as [|k IH]; intros n Hk Hn; [lia|].
  destruct (decide (n < 10)) as [Hs|Hs].
  - rewrite digits_small by assumption. simpl. lia.
  - rewrite digits_large by lia. rewrite length_app. simpl.
    destruct k as [|k'].
    + simpl in Hn. lia.
    + assert (length (digits (n / 10)) <= S k')%nat; [|lia].
      apply IH; [lia|].
      apply N.Div0.div_lt_upper_bound.
      rewrite Nat2N.inj_succ, N.pow_succ_r' in Hn. exact Hn.
Qed.

Lemma decimal_value_zeros k s :
  decimal_value (repeat ZERO k ++ s) = decimal_value s.
Proof.
  unfold decimal_value. rewrite fold_left_app. f_equal.
  induction k as [|k IH]; simpl; [reflexivity|].
  unfold ZERO at 2. simpl. exact IH.
Qed.

Lemma decimal_value_zfill w n : decimal_value (zfill w (digits n)) = n.
Proof.
  unfold zfill. rewrite decimal_value_zeros. apply decimal_value_digits.
Qed.

Lemma zfill_are_digits w n : Forall is_digit (zfill w (digits n)).
Proof.
  unfold zfill. apply Forall_app. split; [|apply digits_are_digits].
  induction (w - length (digits n))%nat as [|k IH]; simpl; constructor;
    [unfold is_digit, ZERO; lia|exact IH].
Qed.

Lemma zfill_length w s : length (zfill w s) = Nat.max w (length s).
Proof. unfold zfill. rewrite length_app, repeat_length. lia. Qed.

(** No more zeros than the width asks for. *)
Lemma zfill_head w n c s :
  (0 < w)%nat ->
  zfill w (digits n) = c :: s -> (w < length (c :: s))%nat -> c <> ZERO.
Proof.
  intros Hw E Hlen.
  assert (length (c :: s) = Nat.max w (length (digits n))) as L
    by (rewrite <- E; apply zfill_length).
  unfold zfill in E.
  replace (w - length (digits n))%nat with 0%nat in E by lia.
  simpl in E. apply (digits_head n c s E).
  destruct (decide (n < 10)) as [Hs|Hs]; [|lia].
  rewrite digits_small in L by assumption. simpl in *. lia.
Qed.

(** ['%05d'] gives different texts for different numbers. *)
Lemma fmt_05d_inj i j : fmt_05d i = fmt_05d j -> i = j.
Proof.
  unfold fmt_05d. intros E.
  destruct (Z.ltb_spec i 0), (Z.ltb_spec j 0).
  - injection E as E. apply (f_equal decimal_value) in E.
    rewrite !decimal_value_zfill in E. lia.
  - pose proof (zfill_are_digits 5 (Z.to_N j)) as D. rewrite <- E in D.
    apply Forall_cons in D as [D _]. unfold is_digit, MINUS, ZERO in D. lia.
  - pose proof (zfill_are_digits 5 (Z.to_N i)) as D. rewrite E in D.
    apply Forall_cons in D as [D _]. unfold is_digit, MINUS, ZERO in D. lia.
  - apply (f_equal decimal_value) in E.
    rewrite !decimal_value_zfill in E. lia.
Qed.

End FmtFacts.

(** ** One utterance *)

Section ProcessFacts.
Context `{Rounding} `{Audio} `{HParams} `{Disk}.

Lemma join2_relative a b :
  startswith SLASH b = false -> join a [b] = join_prefix a ++ b.
Proof.
  intros Hb. unfold join, join_prefix. simpl. unfold join2. rewrite Hb.
  destruct (match a with [] => true | _ => endswith SLASH a end);
    [reflexivity|].
  rewrite <- app_assoc. reflexivity.
Qed.

Lemma spectrogram_filename_relative k :
  startswith SLASH (spectrogram_filename k) = false.
Proof. reflexivity. Qed.

Lemma mel_filename_relative k :
  startswith SLASH (mel_filename k) = false.
Proof. reflexivity. Qed.

Lemma spectrogram_path_npy out_dir k :
  lit ".npy" `suffix_of` join out_dir [spectrogram_filename k].
Proof.
  rewrite join2_relative by apply spectrogram_filename_relative.
  unfold spectrogram_filename. eexists. rewrite !app_assoc. reflexivity.
Qed.

Lemma mel_path_npy out_dir k :
  lit ".npy" `suffix_of` join out_dir [mel_filename k].
Proof.
  rewrite join2_relative by apply mel_filename_relative.
  unfold mel_filename. eexists. rewrite !app_assoc. reflexivity.
Qed.

Lemma spectrogram_filename_inj j k :
  spectrogram_filename j = spectrogram_filename k -> j = k.
Proof.
  unfold spectrogram_filename. intros E.
  apply app_inv_head, app_inv_tail in E. apply fmt_05d_inj. exact E.
Qed.

Lemma mel_filename_inj j k : mel_filename j = mel_filename k -> j = k.
Proof.
  unfold mel_filename. intros E.
  apply app_inv_head, app_inv_tail in E. apply fmt_05d_inj. exact E.
Qed.

Lemma spectrogram_mel_differ j k : spectrogram_filename j <> mel_filename k.
Proof. unfold spectrogram_filename, mel_filename. simpl. discriminate. Qed.

Lemma np_save_npy (file : str) (arr : array2) fs :
  lit ".npy" `suffix_of` file ->
  np_save file arr fs =
  match save_error file with
  | Some e => (Raised e, fs)
  | None => (Ok tt, <[file := arr]> fs)
  end.
Proof.
  intros Hs. unfold np_save. rewrite decide_True by assumption.
  reflexivity.
Qed.

Lemma paths_differ out_dir j k :
  join out_dir [spectrogram_filename j] <> join out_dir [mel_filename k].
Proof.
  rewrite join2_relative by apply spectrogram_filename_relative.
  rewrite join2_relative by apply mel_filename_relative.
  intros E. apply app_inv_head in E. exact (spectrogram_mel_differ _ _ E).
Qed.

(** The files and the value of [_process_utterance] once the waveform is
    loaded and rescaled. *)
Lemma process_loaded out_dir index wav_path pinyin wav0 wav1 fs :
  load_wav wav_path = Ok wav0 -> Np.rescale wav0 = Ok wav1 ->
  _process_utterance out_dir index wav_path pinyin fs =
  let spec := astype_float32 (spectrogram (trim_silence wav1)) in
  let mel := astype_float32 (melspectrogram (trim_silence wav1)) in
  let spec_path := join out_dir [spectrogram_filename index] in
  let mel_path := join out_dir [mel_filename index] in
  if (max_frame_num <? shape_1 spec)%Z then (Ok None, fs)
  else
    match save_error spec_path with
    | Some e => (Raised e, fs)
    | None =>
        match save_error mel_path with
        | Some e => (Raised e, <[spec_path := transposed spec]> fs)
        | None =>
            (Ok (Some (spectrogram_filename index, mel_filename index,
                       shape_1 spec, pinyin)),
             <[mel_path := transposed mel]>
               (<[spec_path := transposed spec]> fs))
        end
    end.
Proof.
  intros Hload Hres. unfold _process_utterance, bind, lift.
  rewrite Hload, Hres. cbv beta iota zeta.
  destruct (max_frame_num <? _)%Z; [reflexivity|].
  rewrite np_save_npy by apply spectrogram_path_npy.
  destruct (save_error (join out_dir [spectrogram_filename index]));
    [reflexivity|].
  rewrite np_save_npy by apply mel_path_npy.
  destruct (save_error (join out_dir [mel_filename index])); reflexivity.
Qed.

Lemma process_load_raises out_dir index wav_path pinyin e fs :
  load_wav wav_path = Raised e ->
  _process_utterance out_dir index wav_path pinyin fs = (Raised e, fs).
Proof.
  intros Hload. unfold _process_utterance, bind, lift. rewrite Hload.
  reflexivity.
Qed.

Lemma process_rescale_raises out_dir index wav_path pinyin wav0 e fs :
  load_wav wav_path = Ok wav0 -> Np.rescale wav0 = Raised e ->
  _process_utterance out_dir index wav_path pinyin fs = (Raised e, fs).
Proof.
  intros Hload Hres. unfold _process_utterance, bind, lift.
  rewrite Hload, Hres. reflexivity.
Qed.

(** What an utterance returns or raises does not depend on the files that
    are already there. *)
Lemma process_outcome_files out_dir index wav_path pinyin fs fs' :
  fst (_process_utterance out_dir index wav_path pinyin fs) =
  fst (_process_utterance out_dir index wav_path pinyin fs').
Proof.
  destruct (load_wav wav_path) as [wav0|e] eqn:Hload.
  - destruct (Np.rescale wav0) as [wav1|e] eqn:Hres.
    + rewrite !(process_loaded _ _ _ _ _ _ _ Hload Hres).
      cbv beta iota zeta.
      destruct (max_frame_num <? _)%Z; [reflexivity|].
      destruct (save_error (join out_dir [spectrogram_filename index]));
        [reflexivity|].
      destruct (save_error (join out_dir [mel_filename index]));
        reflexivity.
    + rewrite !(process_rescale_raises _ _ _ _ _ _ _ Hload Hres).
      reflexivity.
  - rewrite !(process_load_raises _ _ _ _ _ _ Hload). reflexivity.
Qed.


End ProcessFacts.

Section ProcessClaims.
Context `{Rounding} `{Audio} `{HParams} `{Disk}.
Import Np.

(** A record comes with its two files, saved under the names it carries
    in [out_dir]; nothing else is written. *)
Lemma process_returns_record out_dir index wav_path pinyin fs r fs' :
  _process_utterance out_dir index wav_path pinyin fs = (Ok (Some r), fs') ->
  exists n a b,
    r = (spectrogram_filename index, mel_filename index, n, pinyin) /\
    fs' = <[join out_dir [mel_filename index] := b]>
            (<[join out_dir [spectrogram_filename index] := a]> fs).
Proof.
  destruct (load_wav wav_path) as [wav0|e] eqn:Hload.
  - destruct (rescale wav0) as [wav1|e] eqn:Hres.
    + rewrite (process_loaded _ _ _ _ _ _ _ Hload Hres).
      cbv beta iota zeta.
      destruct (max_frame_num <? _)%Z; [discriminate|].
      destruct (save_error (join out_dir [spectrogram_filename index]));
        [discriminate|].
      destruct (save_error (join out_dir [mel_filename index]));
        [discriminate|].
      intros E. injection E as <- <-. eauto.
    + rewrite (process_rescale_raises _ _ _ _ _ _ _ Hload Hres).
      discriminate.
  - rewrite (process_load_raises _ _ _ _ _ _ Hload). discriminate.
Qed.

(** No path but the two of its index is touched, whatever happens. *)
Lemma process_frame out_dir index wav_path pinyin fs p :
  p <> join out_dir [spectrogram_filename index] ->
  p <> join out_dir [mel_filename index] ->
  snd (_process_utterance out_dir index wav_path pinyin fs) !! p = fs !! p.
Proof.
  intros Hp1 Hp2.
  destruct (load_wav wav_path) as [wav0|e] eqn:Hload.
  - destruct (rescale wav0) as [wav1|e] eqn:Hres.
    + rewrite (process_loaded _ _ _ _ _ _ _ Hload Hres).
      cbv beta iota zeta.
      destruct (max_frame_num <? _)%Z; [reflexivity|].
      destruct (save_error (join out_dir [spectrogram_filename index]));
        [reflexivity|].
      destruct (save_error (join out_dir [mel_filename index])); simpl.
      * apply lookup_insert_ne. intros E. apply Hp1. symmetry. exact E.
      * rewrite lookup_insert_ne by (intros E; apply Hp2; symmetry; exact E).
        apply lookup_insert_ne. intros E. apply Hp1. symmetry. exact E.
    + rewrite (process_rescale_raises _ _ _ _ _ _ _ Hload Hres).
      reflexivity.
  - rewrite (process_load_raises _ _ _ _ _ _ Hload). reflexivity.
Qed.

(** C5.  For a sequential index [k >= 1] the two file names are
    [biaobei48000-spec-] and [biaobei48000-mel-], then the decimal digits
    of [k] with zeros on the left up to five characters (and none beyond
    five), then [.npy].  These are the names [_process_utterance] produces:
    when the waveform loads and rescales, the frame count is within the
    limit and the two saves succeed, it saves the transposed spectrogram
    under the first name and the transposed mel spectrogram under the
    second, both in [out_dir], changes no other file and returns the record
    with the two names; whenever it returns a record, the record carries
    these names and the files are the old ones plus the two; and whatever
    happens, it touches no other path.  Another index gives other names and
    other paths in the same directory, and a spectrogram name is never a
    mel name. *)
Theorem filenames_of_index (out_dir : str) (k : Z) :
  (1 <= k)%Z ->
  exists d : str,
    spectrogram_filename k = lit "biaobei48000-spec-" ++ d ++ lit ".npy" /\
    mel_filename k = lit "biaobei48000-mel-" ++ d ++ lit ".npy" /\
    Forall is_digit d /\ decimal_value d = Z.to_N k /\
    (5 <= length d)%nat /\
    ((k <= 99999)%Z -> length d = 5%nat) /\
    (forall c s, d = c :: s -> (5 < length d)%nat -> c <> Fmt.ZERO) /\
    (forall wav_path pinyin wav0 wav1 fs,
       load_wav wav_path = Ok wav0 -> rescale wav0 = Ok wav1 ->
       let spec := astype_float32 (spectrogram (trim_silence wav1)) in
       let mel := astype_float32 (melspectrogram (trim_silence wav1)) in
       let spec_name : str :=
         lit "biaobei48000-spec-" ++ d ++ lit ".npy" in
       let mel_name : str := lit "biaobei48000-mel-" ++ d ++ lit ".npy" in
       (shape_1 spec <= max_frame_num)%Z ->
       save_error (join out_dir [spec_name]) = None ->
       save_error (join out_dir [mel_name]) = None ->
       _process_utterance out_dir k wav_path pinyin fs =
       (Ok (Some (spec_name, mel_name, shape_1 spec, pinyin)),
        <[join out_dir [mel_name] := transposed mel]>
          (<[join out_dir [spec_name] := transposed spec]> fs))) /\
    (forall wav_path pinyin fs r fs',
       _process_utterance out_dir k wav_path pinyin fs = (Ok (Some r), fs') ->
       exists n a b,
         r = (spectrogram_filename k, mel_filename k, n, pinyin) /\
         fs' = <[join out_dir [mel_filename k] := b]>
                 (<[join out_dir [spectrogram_filename k] := a]> fs)) /\
    (forall wav_path pinyin fs p,
       p <> join out_dir [spectrogram_filename k] ->
       p <> join out_dir [mel_filename k] ->
       snd (_process_utterance out_dir k wav_path pinyin fs) !! p
       = fs !! p) /\
    (forall j, j <> k ->
       spectrogram_filename j <> spectrogram_filename k /\
       mel_filename j <> mel_filename k /\
       join out_dir [spectrogram_filename j]
         <> join out_dir [spectrogram_filename k] /\
       join out_dir [mel_filename j] <> join out_dir [mel_filename k]) /\
    (forall j,
       spectrogram_filename j <> mel_filename k /\
       join out_dir [spectrogram_filename j]
         <> join out_dir [mel_filename k]).
Proof.
  intros Hk. exists (Fmt.zfill 5 (Fmt.digits (Z.to_N k))).
  assert (Fmt.fmt_05d k = Fmt.zfill 5 (Fmt.digits (Z.to_N k))) as Hfmt.
  { unfold Fmt.fmt_05d. destruct (Z.ltb_spec k 0); [lia|reflexivity]. }
  split; [unfold spectrogram_filename; rewrite Hfmt; reflexivity|].
  split; [unfold mel_filename; rewrite Hfmt; reflexivity|].
  split; [apply zfill_are_digits|].
  split; [apply decimal_value_zfill|].
  split; [rewrite zfill_length; lia|].
  split.
  { intros Hle. rewrite zfill_length.
    pose proof (digits_length (Z.to_N k) 5 ltac:(lia)) as L.
    assert (Z.to_N k < 10 ^ N.of_nat 5) as Hlt by (simpl; lia).
    specialize (L Hlt). lia. }
  split.
  { intros c s E Hlen. rewrite E in Hlen.
    exact (zfill_head 5 (Z.to_N k) c s ltac:(lia) E Hlen). }
  split.
  { intros wav_path pinyin wav0 wav1 fs Hload Hres spec mel.
    rewrite <- Hfmt.
    change (lit "biaobei48000-spec-" ++ Fmt.fmt_05d k ++ lit ".npy")
      with (spectrogram_filename k).
    change (lit "biaobei48000-mel-" ++ Fmt.fmt_05d k ++ lit ".npy")
      with (mel_filename k).
    cbv zeta. intros Hn Hs Hm.
    rewrite (process_loaded _ _ _ _ _ _ _ Hload Hres). cbv beta iota zeta.
    fold spec mel. apply Z.ltb_ge in Hn. rewrite Hn.
    destruct (save_error (join out_dir [spectrogram_filename k]));
      [discriminate Hs|].
    destruct (save_error (join out_dir [mel_filename k]));
      [discriminate Hm|].
    reflexivity. }
  split; [intros; eapply process_returns_record; eassumption|].
  split; [intros; apply process_frame; assumption|].
  split.
  - intros j Hj. repeat split; intros E.
    + apply Hj, spectrogram_filename_inj, E.
    + apply Hj, mel_filename_inj, E.
    + rewrite !join2_relative in E by apply spectrogram_filename_relative.
      apply app_inv_head in E. apply Hj, spectrogram_filename_inj, E.
    + rewrite !join2_relative in E by apply mel_filename_relative.
      apply app_inv_head in E. apply Hj, mel_filename_inj, E.
  - intros j. split; intros E.
    + exact (spectrogram_mel_differ _ _ E).
    + exact (paths_differ _ _ _ E).
Qed.

(** C7.  On a silent waveform (largest absolute sample value 0) nothing
    guards the division: every sample is zero and is divided by the zero
    peak, every quotient is NaN, the rescaled waveform is all NaN, no
    exception is raised and nothing is skipped because of it.  The function
    goes on with the NaN waveform as with any other: it skips when the frame
    count of its spectrogram exceeds [max_frame_num], and saves the two
    files otherwise (a save that raises ends it, as for any waveform). *)
Theorem process_silent_utterance (out_dir : str) (index : Z)
    (wav_path pinyin : str) (wav : ndarray) (m : Q)
    (fs : gmap str array2) :
  load_wav wav_path = Ok wav ->
  max (map fabs wav) = Ok (Fin m) -> (m == 0)%Q ->
  Forall (fun x => exists q, x = Fin q /\ (q == 0)%Q
                             /\ fdiv x (Fin m) = NaN) wav /\
  rescale wav = Ok (map (fun _ => NaN) wav) /\
  _process_utterance out_dir index wav_path pinyin fs =
  let nans := trim_silence (map (fun _ => NaN) wav) in
  let spec := astype_float32 (spectrogram nans) in
  let mel := astype_float32 (melspectrogram nans) in
  let spec_path := join out_dir [spectrogram_filename index] in
  let mel_path := join out_dir [mel_filename index] in
  if (max_frame_num <? shape_1 spec)%Z then (Ok None, fs)
  else
    match save_error spec_path with
    | Some e => (Raised e, fs)
    | None =>
        match save_error mel_path with
        | Some e => (Raised e, <[spec_path := transposed spec]> fs)
        | None =>
            (Ok (Some (spectrogram_filename index, mel_filename index,
                       shape_1 spec, pinyin)),
             <[mel_path := transposed mel]>
               (<[spec_path := transposed spec]> fs))
        end
    end.
Proof.
  intros Hload Hmax Hm.
  destruct (rescale_silent wav m Hmax Hm) as [Hall Hres].
  split; [exact Hall|]. split; [exact Hres|].
  apply (process_loaded _ _ _ _ _ _ _ Hload Hres).
Qed.

End ProcessClaims.

(** ** The whole run *)

Section BuildFacts.
Context `{Rounding} `{Audio} `{HParams} `{Disk} `{TextFiles}.

Lemma outcome_of_files t fs : fst (call t fs) = outcome_of t.
Proof. unfold outcome_of, call. apply process_outcome_files. Qed.

Lemma submit_future t fs : exists fs', submit t fs = (Ok (future_of t), fs').
Proof.
  unfold submit. pose proof (outcome_of_files t fs) as E.
  destruct (call t fs) as [r fs']. simpl in E. subst r.
  exists fs'. reflexivity.
Qed.

Lemma submit_loop_cons in_dir out_dir u trn_ids futures index :
  submit_loop in_dir out_dir (u :: trn_ids) futures index =
  bind (submit (task_of in_dir out_dir index u))
       (fun fut => submit_loop in_dir out_dir trn_ids (futures ++ [fut])
                               (index + 1)%Z).
Proof. destruct u. reflexivity. Qed.

Lemma imap_index_cons {A B} (g : Z -> A -> B) (index : Z) u l :
  imap (fun k v => g (index + Z.of_nat k)%Z v) (u :: l) =
  g index u :: imap (fun k v => g (index + 1 + Z.of_nat k)%Z v) l.
Proof.
  rewrite imap_cons. f_equal.
  - f_equal. lia.
  - apply imap_ext. intros k v _. simpl. f_equal. lia.
Qed.

(** The loop adds one future for each utterance, in order, and the k-th
    utterance from the current one gets the current index plus k. *)
Lemma submit_loop_futures in_dir out_dir trn_ids :
  forall futures index fs,
  exists fs',
    submit_loop in_dir out_dir trn_ids futures index fs =
    (Ok (futures
         ++ imap (fun k u =>
                    future_of (task_of in_dir out_dir (index + Z.of_nat k) u))
                 trn_ids,
         (index + Z.of_nat (length trn_ids))%Z),
     fs').
Proof.
  induction trn_ids as [|u trn_ids IH]; intros futures index fs.
  - exists fs. simpl. unfold ret. rewrite app_nil_r, Z.add_0_r.
    reflexivity.
  - rewrite submit_loop_cons. unfold bind.
    destruct (submit_future (task_of in_dir out_dir index u) fs)
      as [fs1 E1].
    rewrite E1.
    destruct (IH (futures ++ [future_of (task_of in_dir out_dir index u)])
                 (index + 1)%Z fs1) as [fs2 E2].
    exists fs2. rewrite E2.
    rewrite (imap_index_cons
               (fun i v => future_of (task_of in_dir out_dir i v))).
    rewrite <- app_assoc. simpl. do 3 f_equal. lia.
Qed.

Lemma collect_ok futures :
  Forall (fun fut => exists o, future_outcome fut = Ok o) futures ->
  collect futures = Ok (omap (fun fut => kept (future_outcome fut)) futures).
Proof.
  induction 1 as [|fut futures [o Ho] _ IH]; simpl; [reflexivity|].
  unfold future_result. rewrite Ho, IH. destruct o; reflexivity.
Qed.



(** The run up to the comprehension. *)
Lemma build_from_path_parsed in_dir out_dir num_workers tqdm fs trn_ids :
  (0 < num_workers)%Z ->
  parse_trn (trn_file_of in_dir) = Ok trn_ids ->
  fst (build_from_path in_dir out_dir num_workers tqdm fs) =
  collect (tqdm (imap (fun k u =>
                         future_of (task_of in_dir out_dir
                                            (1 + Z.of_nat k) u))
                      trn_ids)).
Proof.
  intros Hworkers Hparse.
  unfold build_from_path, bind, lift, ProcessPoolExecutor.
  apply Z.leb_gt in Hworkers. rewrite Hworkers.
  fold (trn_file_of in_dir). rewrite Hparse.
  destruct (submit_loop_futures in_dir out_dir trn_ids [] 1%Z fs)
    as [fs' E].
  rewrite E. reflexivity.
Qed.

End BuildFacts.

Section BuildClaims.
Context `{Rounding} `{Audio} `{HParams} `{Disk} `{TextFiles}.

Lemma outcome_of_task in_dir out_dir index idx pinyin fs0 :
  outcome_of (task_of in_dir out_dir index (idx, pinyin)) =
  fst (_process_utterance out_dir index (wav_file_of in_dir idx) pinyin fs0).
Proof. unfold outcome_of, call. simpl. apply process_outcome_files. Qed.

(** C3.  With at least one worker, a progress wrapper that hands the
    futures on as they are, and when no utterance raises, [build_from_path]
    returns the records of
    the utterances that were not skipped, and only those, in the order of
    the transcription file: the k-th utterance is processed with index
    [1 + k], and its record is kept unless it is the skip sentinel. *)
Theorem build_from_path_returns_kept (in_dir out_dir : str)
    (num_workers : Z) (tqdm : list future -> list future)
    (fs : gmap str array2) (trn_ids : list (str * str)) :
  (0 < num_workers)%Z ->
  (forall l, tqdm l = l) ->
  parse_trn (trn_file_of in_dir) = Ok trn_ids ->
  (forall k (idx pinyin : str) fs0, trn_ids !! k = Some (idx, pinyin) ->
     exists o,
       fst (_process_utterance out_dir (1 + Z.of_nat k)
                               (wav_file_of in_dir idx) pinyin fs0) = Ok o) ->
  fst (build_from_path in_dir out_dir num_workers tqdm fs) =
  Ok (omap kept
        (imap (fun k u =>
                 fst (_process_utterance out_dir (1 + Z.of_nat k)
                        (wav_file_of in_dir (fst u)) (snd u) ∅))
              trn_ids)).
Proof.
  intros Hworkers Htqdm Hparse Hok.
  rewrite (build_from_path_parsed _ _ _ _ _ _ Hworkers Hparse), Htqdm.
  rewrite collect_ok.
  - f_equal. clear Hok Hparse. generalize 1%Z as index.
    induction trn_ids as [|u l IH]; intros index; [reflexivity|].
    rewrite (imap_index_cons
               (fun i v => future_of (task_of in_dir out_dir i v))).
    rewrite (imap_index_cons
               (fun i v => fst (_process_utterance out_dir i
                                  (wav_file_of in_dir (fst v)) (snd v) ∅))).
    simpl. rewrite IH. reflexivity.
  - apply Forall_lookup. intros k fut Hk.
    rewrite list_lookup_imap in Hk.
    destruct (trn_ids !! k) as [[idx pinyin]|] eqn:Eu; [|discriminate].
    simpl in Hk. injection Hk as <-. simpl.
    rewrite (outcome_of_task _ _ _ _ _ ∅). eapply Hok. exact Eu.
Qed.

(** C4.  [build_from_path] runs its loop on the parsed utterances from no
    futures and index 1, and the loop gives the k-th utterance of the
    transcription file (counted from 0) the index [1 + k], whatever the
    earlier utterances returned: its future belongs to the call of
    [_process_utterance] with that index, the audio file of its id and its
    pinyin.  The index after the loop is one more than the number of
    utterances, and no index is used twice. *)
Theorem submit_loop_indices (in_dir out_dir : str)
    (trn_ids : list (str * str)) (fs : gmap str array2) :
  (forall num_workers tqdm,
     build_from_path in_dir out_dir num_workers tqdm =
     bind (lift (ProcessPoolExecutor num_workers)) (fun _ =>
     bind (lift (parse_trn (trn_file_of in_dir))) (fun parsed =>
     bind (submit_loop in_dir out_dir parsed [] 1) (fun fi =>
     lift (collect (tqdm (fst fi))))))) /\
  exists futures fs',
    submit_loop in_dir out_dir trn_ids [] 1 fs =
    (Ok (futures, (1 + Z.of_nat (length trn_ids))%Z), fs') /\
    length futures = length trn_ids /\
    (forall k (idx pinyin : str), trn_ids !! k = Some (idx, pinyin) ->
       exists fut,
         futures !! k = Some fut /\
         future_task fut =
         {| task_out_dir := out_dir; task_index := 1 + Z.of_nat k;
            task_wav_file := join in_dir [lit "Wave"; idx ++ lit ".wav"];
            task_pinyin := pinyin |} /\
         forall fs0,
           future_outcome fut =
           fst (_process_utterance out_dir (1 + Z.of_nat k)
                  (join in_dir [lit "Wave"; idx ++ lit ".wav"]) pinyin fs0)) /\
    (forall k fut, futures !! k = Some fut ->
       task_index (future_task fut) = (1 + Z.of_nat k)%Z) /\
    NoDup (map (fun fut => task_index (future_task fut)) futures).
Proof.
  split; [reflexivity|].
  destruct (submit_loop_futures in_dir out_dir trn_ids [] 1%Z fs)
    as [fs' E].
  simpl in E. eexists. exists fs'. split; [exact E|].
  split; [apply length_imap|].
  assert (forall k fut,
            imap (fun k u => future_of (task_of in_dir out_dir
                                                (1 + Z.of_nat k) u))
                 trn_ids !! k = Some fut ->
            task_index (future_task fut) = (1 + Z.of_nat k)%Z) as Hidx.
  { intros k fut Hk. rewrite list_lookup_imap in Hk.
    destruct (trn_ids !! k); [|discriminate].
    injection Hk as <-. reflexivity. }
  split; [|split; [exact Hidx|]].
  - intros k idx pinyin Hk. eexists. split; [|split].
    + rewrite list_lookup_imap, Hk. reflexivity.
    + reflexivity.
    + intros fs0. apply (outcome_of_task in_dir out_dir).
  - apply NoDup_alt. intros i j x Hi Hj.
    change (map ?f ?l) with (f <$> l) in Hi, Hj.
    rewrite list_lookup_fmap in Hi, Hj.
    destruct (imap _ trn_ids !! i) as [fi|] eqn:Ei; [|discriminate].
    destruct (imap _ trn_ids !! j) as [fj|] eqn:Ej; [|discriminate].
    apply Hidx in Ei, Ej. simpl in Hi, Hj. injection Hi as Hi.
    injection Hj as Hj. lia.
Qed.


End BuildClaims.

Section SampleFacts.

Lemma process_total_loaded `{Rounding} `{Audio} `{HParams} `{Disk}
    out_dir index wav_path pinyin wav0 wav1 fs :
  load_wav wav_path = Ok wav0 -> Np.rescale wav0 = Ok wav1 ->
  (forall p, save_error p = None) ->
  exists o, fst (_process_utterance out_dir index wav_path pinyin fs) = Ok o.
Proof.
  intros Hload Hres Hsave.
  rewrite (process_loaded _ _ _ _ _ _ _ Hload Hres).
  cbv beta iota zeta. rewrite !Hsave.
  destruct (max_frame_num <? _)%Z; eauto.
Defined.

Lemma sample_parse :
  @parse_trn sample_files (trn_file_of (lit "in")) = Ok sample_trn_ids.
Proof. vm_compute. reflexivity. Defined.

End SampleFacts.



Lemma filenames_of_index_witness :
  exists d : str,
    spectrogram_filename 42 = lit "biaobei48000-spec-" ++ d ++ lit ".npy" /\
    mel_filename 42 = lit "biaobei48000-mel-" ++ d ++ lit ".npy" /\
    d = lit "00042" /\
    exists spec mel,
      @_process_utterance exact_arithmetic sample_arrays
        (sample_audio sample_wavs) (sample_hparams 1000) sample_disk
        (lit "out") 42 (lit "in/Wave/000001.wav") (lit "ka2 er2 pu3") ∅ =
      (Ok (Some (lit "biaobei48000-spec-00042.npy",
                 lit "biaobei48000-mel-00042.npy", 3%Z, lit "ka2 er2 pu3")),
       <[lit "out/biaobei48000-mel-00042.npy" := mel]>
         (<[lit "out/biaobei48000-spec-00042.npy" := spec]> ∅)).
Proof.
  destruct (@filenames_of_index exact_arithmetic sample_arrays
              (sample_audio sample_wavs) (sample_hparams 1000) sample_disk
              (lit "out") 42%Z)
    as (d & Hs & Hm & _ & _ & _ & _ & _ & Hproc & _).
  - discriminate.
  - assert (d = lit "00042") as Hd.
    { apply (app_inv_head (lit "biaobei48000-spec-")).
      apply (app_inv_tail (lit ".npy")).
      rewrite <- app_assoc, <- Hs. vm_compute. reflexivity. }
    exists d. split; [exact Hs|]. split; [exact Hm|]. split; [exact Hd|].
    pose proof (Hproc (lit "in/Wave/000001.wav") (lit "ka2 er2 pu3") wav_1
                  _ ∅ eq_refl eq_refl) as E.
    cbv zeta in E. rewrite Hd in E.
    eexists. eexists. apply E; [discriminate|reflexivity|reflexivity].
Defined.

Lemma process_silent_utterance_witness :
  @Np.rescale exact_arithmetic wav_silent = Ok [Np.NaN; Np.NaN] /\
  fst (@_process_utterance exact_arithmetic sample_arrays (sample_audio sample_wavs)
         (sample_hparams 1000) sample_disk
         (lit "out") 2 (lit "in/Wave/000002.wav")
         (lit "jia2 yu3") ∅) =
  Ok (Some (lit "biaobei48000-spec-00002.npy",
            lit "biaobei48000-mel-00002.npy", 2%Z, lit "jia2 yu3")).
Proof.
  destruct (@process_silent_utterance exact_arithmetic sample_arrays
              (sample_audio sample_wavs) (sample_hparams 1000) sample_disk
              (lit "out") 2%Z (lit "in/Wave/000002.wav") (lit "jia2 yu3")
              wav_silent 0%Q ∅ eq_refl eq_refl)
    as (_ & Hres & Hproc).
  - reflexivity.
  - split; [exact Hres|]. rewrite Hproc. reflexivity.
Defined.

Lemma build_from_path_returns_kept_witness :
  fst (@build_from_path exact_arithmetic sample_arrays (sample_audio sample_wavs)
         (sample_hparams 2) sample_disk sample_files (lit "in") (lit "out") 1
         (fun l => l) ∅) =
  Ok [(lit "biaobei48000-spec-00002.npy", lit "biaobei48000-mel-00002.npy",
       2%Z, lit "jia2 yu3")].
Proof.
  rewrite (@build_from_path_returns_kept exact_arithmetic sample_arrays
             (sample_audio sample_wavs) (sample_hparams 2) sample_disk
             sample_files
             (lit "in") (lit "out") 1%Z (fun l => l) ∅ sample_trn_ids).
  - vm_compute. reflexivity.
  - reflexivity.
  - reflexivity.
  - exact sample_parse.
  - intros k idx pinyin fs0 Hk.
    destruct k as [|[|k]]; simpl in Hk; try discriminate;
      injection Hk as <- <-;
      eapply process_total_loaded; reflexivity.
Defined.


(** * Further properties *)

(** ** The transcription parser, on any text *)

Section ParseMore.
Import Trn.

(** [strip] leaves the empty string or a string with no white space at
    either end. *)
Lemma strip_ends s :
  strip s = [] \/
  (exists c t, strip s = c :: t /\ isspace c = false) /\
  (exists t d, strip s = t ++ [d] /\ isspace d = false).
Proof.
  unfold strip.
  destruct (lstrip_spec (rev s)) as (w & Hw & _ & Hhead).
  destruct (lstrip_spec (rstrip s)) as (v & Hv & Hvs & Hfirst).
  destruct (lstrip (rstrip s)) as [|c t] eqn:El; [left; reflexivity|].
  right. split; [eauto|].
  unfold rstrip in Hv. destruct (lstrip (rev s)) as [|d u] eqn:Er.
  - simpl in Hv. destruct v; discriminate.
  - simpl in Hv.
    destruct (exists_last (l := c :: t) ltac:(discriminate)) as (t' & e & Ee).
    rewrite Ee in Hv. rewrite app_assoc in Hv.
    apply app_inj_tail in Hv as [_ <-]. eauto.
Qed.

Lemma strip_fixed_ends s :
  (exists c t, s = c :: t /\ isspace c = false) ->
  (exists t d, s = t ++ [d] /\ isspace d = false) ->
  strip s = s.
Proof.
  intros (c & t & -> & Hc) (t' & d & E & Hd). unfold strip.
  rewrite E, rstrip_snoc_nonspace by assumption. rewrite <- E.
  simpl. rewrite Hc. reflexivity.
Qed.

Lemma strip_idem s : strip (strip s) = strip s.
Proof.
  destruct (strip_ends s) as [E|[H1 H2]].
  - rewrite E. reflexivity.
  - apply strip_fixed_ends; assumption.
Qed.

Lemma strip_lstrip s : lstrip (strip s) = strip s.
Proof.
  destruct (strip_ends s) as [E|[(c & t & E & Hc) _]]; rewrite E.
  - reflexivity.
  - simpl. rewrite Hc. reflexivity.
Qed.

(** A line as [readline] returns it has its only newline at the end. *)
Lemma readline_shape f :
  exists l, (NL ∉ l) /\
            (fst (readline f) = l \/ fst (readline f) = l ++ [NL]).
Proof.
  induction f as [|c f (l & Hl & IH)]; simpl.
  - exists []. split; [apply not_elem_of_nil|auto].
  - destruct (N.eqb_spec c NL) as [->|Hc].
    + exists []. split; [apply not_elem_of_nil|auto].
    + exists (c :: l). split.
      * apply not_elem_of_cons. auto.
      * destruct (readline f) as [l' r]. simpl in *.
        destruct IH as [->| ->]; auto.
Qed.

Lemma strip_readline_no_newline f : NL ∉ strip (fst (readline f)).
Proof.
  destruct (readline_shape f) as (l & Hl & [-> | ->]).
  - apply strip_not_elem. assumption.
  - rewrite strip_snoc_space by apply isspace_NL.
    apply strip_not_elem. assumption.
Qed.

(** Induction over the turns of the loop: a property of the entries that
    holds for no turn and is kept by one more turn in front holds for what
    the loop appends. *)
Lemma parse_loop_entries (P : str -> str -> list (str * str) -> Prop) :
  (forall f, P [] f []) ->
  (forall c l f es,
     P (strip (fst (readline (snd (readline f)))))
       (snd (readline (snd (readline f)))) es ->
     P (c :: l) f ((before TAB (c :: l), strip (fst (readline f))) :: es)) ->
  forall line f,
  exists es, P line f es /\
             forall trns, parse_loop line f trns = Ok (trns ++ es).
Proof.
  intros Hnil Hcons line f.
  remember (length f + match line with [] => 0 | _ => 1 end)%nat as n eqn:En.
  revert line f En.
  induction n as [n IH] using lt_wf_ind. intros line f En.
  destruct line as [|c l].
  - exists []. split; [apply Hnil|]. intros trns.
    rewrite parse_loop_equation_1, app_nil_r. reflexivity.
  - destruct (IH (length (snd (readline (snd (readline f))))
                  + match strip (fst (readline (snd (readline f)))) with
                    | [] => 0 | _ => 1 end)%nat) with
      (line := strip (fst (readline (snd (readline f)))))
      (f := snd (readline (snd (readline f)))) as (es & HP & Hes).
    + subst n. destruct f as [|d f].
      * simpl. lia.
      * pose proof (readline_shorter (snd (readline (d :: f)))).
        assert ((length (snd (readline (d :: f))) < length (d :: f))%nat).
        { simpl. pose proof (readline_shorter f).
          destruct (d =? NL); simpl; [lia|].
          destruct (readline f); simpl in *; lia. }
        destruct (strip _); lia.
    + reflexivity.
    + exists ((before TAB (c :: l), strip (fst (readline f))) :: es).
      split; [apply Hcons; exact HP|].
      intros trns. rewrite parse_loop_step, Hes, <- app_assoc.
      reflexivity.
Qed.

Lemma before_first c s sep :
  c <> sep -> exists t, before sep (c :: s) = c :: t.
Proof.
  intros Hc. simpl. destruct (N.eqb_spec c sep); [congruence|eauto].
Qed.

Lemma parse_text_entries_good text :
  exists es, parse_text text = Ok es /\ Forall entry_good es.
Proof.
  unfold parse_text.
  destruct (parse_loop_entries
              (fun line _ es =>
                 strip line = line -> (NL ∉ line) -> Forall entry_good es))
    with (line := strip (fst (readline text))) (f := snd (readline text))
    as (es & HP & Hes).
  - intros. constructor.
  - intros c l f es IH Hs Hnl. constructor.
    + assert (isspace c = false) as Hc.
      { unfold strip in Hs. apply strip_fixed in Hs as [_ Hs].
        apply lstrip_fixed in Hs. exact Hs. }
      assert (c <> TAB) as Hct by (intros ->; discriminate).
      destruct (before_first c l TAB Hct) as [t Et].
      unfold entry_good. cbn [fst snd].
      split; [rewrite Et; discriminate|].
      split; [apply before_not_elem|].
      split.
      { intros Hin. apply Hnl.
        destruct (decide (TAB ∈ c :: l)) as [Hin'|Hin'].
        - destruct (before_split _ _ Hin') as [u Hu]. rewrite Hu.
          apply elem_of_app. left. exact Hin.
        - rewrite before_no_sep in Hin by assumption. exact Hin. }
      split; [rewrite Et; simpl; rewrite Hc; reflexivity|].
      split; [apply strip_readline_no_newline|apply strip_idem].
    + apply IH; [apply strip_idem|apply strip_readline_no_newline].
  - exists es. split; [apply (Hes [])|].
    apply HP; [apply strip_idem|apply strip_readline_no_newline].
Qed.

End ParseMore.

Section ParseMoreClaims.
Import Trn.
Context `{TextFiles}.

(** X1.  On a file that opens and decodes, [parse_trn] returns a list,
    whatever the text: the loop comes to an end and
    [line.split('\t')[0]] never fails, so the function raises nothing of
    its own. *)
Theorem parse_trn_returns_on_text (trn_file text : str) :
  open_text trn_file = Ok text ->
  exists es, parse_trn trn_file = Ok es.
Proof.
  intros Hopen. unfold parse_trn. rewrite Hopen. apply parse_text_total.
Qed.

(** X2.  Whatever the text of the file, every entry that [parse_trn]
    returns has an identifier that is not empty, contains neither tab nor
    newline and does not start with white space, and a pronunciation
    without newline and without white space at either end. *)
Theorem parse_trn_entries_good (trn_file : str)
    (trns : list (str * str)) :
  parse_trn trn_file = Ok trns ->
  Forall entry_good trns.
Proof.
  unfold parse_trn. destruct (open_text trn_file) as [text|e];
    [|discriminate].
  intros Hparse.
  destruct (parse_text_entries_good text) as (es & E & Hgood).
  rewrite E in Hparse. injection Hparse as <-. exact Hgood.
Qed.

(** X3.  A blank line where an id line is due ends the parse: the pairs
    before it are returned and everything behind it is dropped without an
    error. *)
Theorem parse_trn_blank_line_stops (trn_file text : str)
    (ps : list (str * str)) (blank rest : str) :
  open_text trn_file = Ok text ->
  text = trn_text ps ++ blank ++ NL :: rest ->
  Forall pair_ok ps ->
  NL ∉ blank -> strip blank = [] ->
  parse_trn trn_file = Ok (map entry_of ps).
Proof.
  intros Hopen -> Hps Hnl Hblank.
  rewrite (parse_trn_open _ _ Hopen).
  rewrite <- (app_nil_r (map entry_of ps)).
  apply parse_text_pairs; [assumption|].
  unfold parse_text. rewrite readline_line by assumption. simpl.
  rewrite strip_snoc_space by apply isspace_NL. rewrite Hblank.
  apply parse_loop_equation_1.
Qed.

End ParseMoreClaims.

Lemma parse_trn_returns_on_text_witness :
  let text := TAB :: lit "no pinyin" ++ [NL; TAB; TAB] in
  exists es, @parse_trn (one_file sample_path text) sample_path = Ok es.
Proof.
  intros text.
  apply (@parse_trn_returns_on_text (one_file sample_path text)
           sample_path text).
  reflexivity.
Defined.

Lemma parse_trn_entries_good_witness :
  Forall entry_good sample_trn_ids.
Proof.
  apply (@parse_trn_entries_good sample_files sample_path sample_trn_ids).
  vm_compute. reflexivity.
Defined.

Lemma parse_trn_blank_line_stops_witness :
  let text := trn_text sample_pairs ++ lit "  " ++ NL
              :: lit "000003" ++ TAB :: lit "x" ++ NL :: lit "san1" ++ [NL] in
  @parse_trn (one_file sample_path text) sample_path
  = Ok (map entry_of sample_pairs).
Proof.
  intros text.
  apply (@parse_trn_blank_line_stops (one_file sample_path text)
           sample_path text sample_pairs (lit "  ")
           (lit "000003" ++ TAB :: lit "x" ++ NL :: lit "san1" ++ [NL])).
  - reflexivity.
  - reflexivity.
  - exact sample_pairs_ok.
  - apply (bool_decide_unpack _). vm_compute. reflexivity.
  - reflexivity.
Defined.

(** ** Rescaling, beyond the bound *)

Section RescaleMore.
Context `{Rounding}.
Import Np.
Open Scope Q_scope.

Lemma fmax_nan_r x : fmax x NaN = NaN.
Proof. destruct x; reflexivity. Qed.

Lemma fold_fmax_nan_acc l : fold_left fmax l NaN = NaN.
Proof. induction l as [|y l IH]; simpl; [reflexivity|exact IH]. Qed.

Lemma fold_fmax_nan l x : NaN ∈ l -> fold_left fmax l x = NaN.
Proof.
  revert x. induction l as [|y l IH]; intros x Hin.
  - apply elem_of_nil in Hin. destruct Hin.
  - simpl. apply elem_of_cons in Hin as [<-|Hin].
    + rewrite fmax_nan_r. apply fold_fmax_nan_acc.
    + apply IH. exact Hin.
Qed.

Lemma max_abs_nan wav : NaN ∈ wav -> max (map fabs wav) = Ok NaN.
Proof.
  destruct wav as [|x wav]; intros Hin.
  - apply elem_of_nil in Hin. destruct Hin.
  - simpl. f_equal. apply elem_of_cons in Hin as [<-|Hin].
    + apply fold_fmax_nan_acc.
    + apply fold_fmax_nan.
      change (fabs NaN ∈ fabs <$> wav). apply list_elem_of_fmap_2.
      exact Hin.
Qed.

Lemma fdiv_nan_r x : fdiv x NaN = NaN.
Proof. destruct x; reflexivity. Qed.

(** X4.  One NaN sample spoils the whole waveform: the peak is NaN, every
    quotient is NaN, and the rescaled waveform is all NaN, with no error. *)
Theorem rescale_nan_sample (wav : ndarray) :
  NaN ∈ wav ->
  max (map fabs wav) = Ok NaN /\
  rescale wav = Ok (map (fun _ => NaN) wav).
Proof.
  intros Hin. pose proof (max_abs_nan wav Hin) as Hmax.
  split; [exact Hmax|]. unfold rescale. rewrite Hmax. f_equal.
  apply map_ext. intros x. rewrite fdiv_nan_r. reflexivity.
Qed.

Lemma fmax_pinf_l y : y <> NaN -> fmax PInf y = PInf.
Proof. destruct y; congruence || reflexivity. Qed.

Lemma fmax_pinf_r x : x <> NaN -> fmax x PInf = PInf.
Proof. destruct x; congruence || reflexivity. Qed.

Lemma fold_fmax_pinf_acc l : NaN ∉ l -> fold_left fmax l PInf = PInf.
Proof.
  induction l as [|y l IH]; cbn [fold_left]; intros Hl; [reflexivity|].
  apply not_elem_of_cons in Hl as [Hy Hl].
  rewrite fmax_pinf_l by congruence. apply IH. exact Hl.
Qed.

Lemma fmax_not_nan x y : x <> NaN -> y <> NaN -> fmax x y <> NaN.
Proof.
  destruct x, y; simpl; try congruence.
  intros _ _. destruct (Qle_bool q q0); discriminate.
Qed.

Lemma fold_fmax_pinf l x :
  x <> NaN -> NaN ∉ l -> PInf ∈ l -> fold_left fmax l x = PInf.
Proof.
  revert x. induction l as [|y l IH]; intros x Hx Hl Hin.
  - apply elem_of_nil in Hin. destruct Hin.
  - simpl. apply not_elem_of_cons in Hl as [Hy Hl].
    apply elem_of_cons in Hin as [<-|Hin].
    + rewrite fmax_pinf_r by assumption. apply fold_fmax_pinf_acc.
      exact Hl.
    + apply IH; [apply fmax_not_nan; congruence|assumption|assumption].
Qed.

Lemma fabs_not_nan x : x <> NaN -> fabs x <> NaN.
Proof. destruct x; simpl; congruence. Qed.

Lemma max_abs_inf wav :
  NaN ∉ wav -> PInf ∈ wav \/ NInf ∈ wav -> max (map fabs wav) = Ok PInf.
Proof.
  intros Hnan Hinf.
  assert (NaN ∉ map fabs wav) as Hnan'.
  { intros Hin. change (NaN ∈ fabs <$> wav) in Hin.
    apply list_elem_of_fmap in Hin as (y & Ey & Hy).
    destruct y; try discriminate. contradiction. }
  assert (PInf ∈ map fabs wav) as Hin.
  { destruct Hinf as [Hi|Hi].
    - change (fabs PInf ∈ fabs <$> wav). apply list_elem_of_fmap_2, Hi.
    - change (fabs NInf ∈ fabs <$> wav). apply list_elem_of_fmap_2, Hi. }
  destruct wav as [|x wav]; [apply elem_of_nil in Hin; destruct Hin|].
  simpl in *. f_equal.
  apply not_elem_of_cons in Hnan' as [Hx Hl].
  apply elem_of_cons in Hin as [E|Hin].
  - rewrite <- E. apply fold_fmax_pinf_acc. exact Hl.
  - apply fold_fmax_pinf; [congruence|assumption|assumption].
Qed.

(** X5.  An infinite sample (and no NaN) makes the peak infinite: every
    number of the waveform becomes one and the same zero, and every
    infinite sample becomes NaN. *)
Theorem rescale_infinite_sample (wav : ndarray) :
  NaN ∉ wav -> PInf ∈ wav \/ NInf ∈ wav ->
  exists z, z == 0 /\
            max (map fabs wav) = Ok PInf /\
            rescale wav = Ok (map (silenced z) wav).
Proof.
  intros Hnan Hinf. exists (rnd (0 * c999)). split.
  - rewrite <- rnd_zero at 2. apply rnd_proper. ring.
  - pose proof (max_abs_inf wav Hnan Hinf) as Hmax.
    split; [exact Hmax|]. unfold rescale. rewrite Hmax. f_equal.
    apply map_ext. intros [q| | |]; reflexivity.
Qed.

End RescaleMore.

Lemma rescale_nan_sample_witness :
  @Np.rescale exact_arithmetic [Np.Fin 1; Np.NaN; Np.Fin (-3)]
  = Ok [Np.NaN; Np.NaN; Np.NaN].
Proof.
  apply (@rescale_nan_sample exact_arithmetic
           [Np.Fin 1; Np.NaN; Np.Fin (-3)]).
  apply elem_of_cons. right. apply elem_of_cons. left. reflexivity.
Defined.

Lemma rescale_infinite_sample_witness :
  exists z, (z == 0)%Q /\
    Np.max (map Np.fabs [Np.Fin 1; Np.NInf; Np.Fin (-3)]) = Ok Np.PInf /\
    @Np.rescale exact_arithmetic [Np.Fin 1; Np.NInf; Np.Fin (-3)]
    = Ok [Np.Fin z; Np.NaN; Np.Fin z].
Proof.
  apply (@rescale_infinite_sample exact_arithmetic
           [Np.Fin 1; Np.NInf; Np.Fin (-3)]).
  - intros Hin.
    repeat (apply elem_of_cons in Hin as [Hin|Hin]; [discriminate|]).
    apply elem_of_nil in Hin. exact Hin.
  - right. apply elem_of_cons. right. apply elem_of_cons. left.
    reflexivity.
Defined.

Section RescalePeak.
Context `{Rounding}.
Import Np.
Open Scope Q_scope.

Lemma fmax_is_arg x y : fmax x y = x \/ fmax x y = y.
Proof.
  destruct x as [p| | |], y as [q| | |]; simpl; auto.
  destruct (Qle_bool p q); auto.
Qed.

(** The largest element is one of the elements. *)
Lemma fold_fmax_elem l x : fold_left fmax l x ∈ x :: l.
Proof.
  revert x. induction l as [|y l IH]; intros x; simpl.
  - apply elem_of_cons. left. reflexivity.
  - specialize (IH (fmax x y)).
    apply elem_of_cons in IH as [E|Hin].
    + rewrite E. destruct (fmax_is_arg x y) as [-> | ->].
      * apply elem_of_cons. left. reflexivity.
      * apply elem_of_cons. right. apply elem_of_cons. left. reflexivity.
    + apply elem_of_cons. right. apply elem_of_cons. right. exact Hin.
Qed.

(** A sample whose absolute value is the peak becomes 0.999 or -0.999. *)
Lemma rescale_peak_sample q m :
  0 < m -> Qabs q == m -> Qabs (rnd (rnd (q / m) * c999)) == c999.
Proof.
  intros Hm Hq. pose proof c999_nonneg as Hc.
  destruct (Qlt_le_dec q 0) as [Hneg|Hpos].
  - rewrite Qabs_neg in Hq by lra.
    assert (q / m == - (1)) as E1 by (field_simplify_eq; lra).
    assert (rnd (q / m) == - (1)) as E2.
    { rewrite (rnd_proper _ _ E1), rnd_opp, rnd_one. reflexivity. }
    assert (rnd (q / m) * c999 == - c999) as E3 by (rewrite E2; ring).
    rewrite (rnd_proper _ _ E3), rnd_opp, c999_kept.
    rewrite Qabs_opp. apply Qabs_pos. exact Hc.
  - rewrite Qabs_pos in Hq by assumption.
    assert (q / m == 1) as E1 by (field_simplify_eq; lra).
    assert (rnd (q / m) == 1) as E2.
    { rewrite (rnd_proper _ _ E1), rnd_one. reflexivity. }
    assert (rnd (q / m) * c999 == c999) as E3 by (rewrite E2; ring).
    rewrite (rnd_proper _ _ E3), c999_kept.
    apply Qabs_pos. exact Hc.
Qed.

(** X6.  Rescaling brings the peak to 0.999 exactly, not only below it:
    when the largest absolute sample value of the waveform is a number
    [m > 0], the largest absolute sample value of the result is the literal
    0.999 as a sample. *)
Theorem rescale_peak_exact (wav : ndarray) (m : Q) :
  max (map fabs wav) = Ok (Fin m) -> 0 < m ->
  exists out m',
    rescale wav = Ok out /\
    max (map fabs out) = Ok (Fin m') /\ m' == c999.
Proof.
  intros Hmax Hm.
  pose proof (max_abs_fin wav m Hmax) as [Hne Hall].
  set (f := fun x => fmul (fdiv x (Fin m)) (Fin c999)).
  assert (Forall (fun y => exists r, y = Fin r /\ Qabs r <= c999)
            (map f wav)) as Hout.
  { rewrite Forall_map. eapply Forall_impl; [exact Hall|].
    intros x (q & -> & Hq). apply rescale_sample; assumption. }
  assert (exists m', max (map fabs (map f wav)) = Ok (Fin m')
                     /\ m' <= c999) as (m' & Hmax' & Hle).
  { destruct wav as [|x wav]; [congruence|]. simpl map.
    destruct (fold_fmax_fin c999 (map fabs (map f wav)) (fabs (f x)))
      as (m' & E & Hm').
    - change (Forall (fun y => exists q, y = Fin q /\ q <= c999)
                (map fabs (map f (x :: wav)))).
      rewrite Forall_map. eapply Forall_impl; [exact Hout|].
      intros y (r & -> & Hr). simpl. eauto.
    - exists m'. simpl. rewrite E. auto. }
  exists (map f wav), m'. split; [unfold rescale; rewrite Hmax; reflexivity|].
  split; [exact Hmax'|].
  apply Qle_antisym; [exact Hle|].
  (* a sample that carries the peak *)
  assert (Fin m ∈ map fabs wav) as Hin.
  { destruct wav as [|x wav]; [congruence|]. simpl in Hmax.
    injection Hmax as <-. apply fold_fmax_elem. }
  change (Fin m ∈ fabs <$> wav) in Hin.
  apply list_elem_of_fmap in Hin as (s & Es & Hs).
  destruct s as [q| | |]; try discriminate. simpl in Es.
  injection Es as Es.
  assert (Qabs q == m) as Hq by (rewrite Es; reflexivity).
  assert (fabs (f (Fin q)) ∈ map fabs (map f wav)) as Hin'.
  { change (fabs (f (Fin q)) ∈ fabs <$> (f <$> wav)).
    apply list_elem_of_fmap_2, list_elem_of_fmap_2, Hs. }
  assert (Forall (below m') (map fabs (map f wav))) as Hbelow.
  { destruct wav as [|x wav]; [congruence|]. simpl map in *.
    simpl in Hmax'. injection Hmax' as Hmax'.
    apply fold_fmax_below. exact Hmax'. }
  rewrite Forall_forall in Hbelow.
  specialize (Hbelow _ Hin'). unfold f in Hbelow. simpl in Hbelow.
  rewrite (is_zero_pos m Hm) in Hbelow. simpl in Hbelow.
  destruct Hbelow as [E|(r & E & Hr)]; [discriminate|].
  injection E as <-.
  rewrite <- (rescale_peak_sample q m Hm Hq). exact Hr.
Qed.

End RescalePeak.

Lemma rescale_peak_exact_witness :
  exists out m',
    @Np.rescale exact_arithmetic wav_1 = Ok out /\
    Np.max (map Np.fabs out) = Ok (Np.Fin m') /\ (m' == 999 # 1000)%Q.
Proof.
  apply (@rescale_peak_exact exact_arithmetic wav_1 2%Q);
    [reflexivity|reflexivity].
Defined.

Section RescaleGain.
Context `{Rounding}.
Import Np.
Open Scope Q_scope.

Lemma Qle_bool_scale k p q :
  0 < k -> Qle_bool (k * p) (k * q) = Qle_bool p q.
Proof.
  intros Hk. destruct (Qle_bool p q) eqn:E.
  - apply Qle_bool_iff. apply Qle_bool_iff in E.
    apply Qmult_le_l; assumption.
  - destruct (Qle_bool (k * p) (k * q)) eqn:E'; [|reflexivity].
    apply Qle_bool_iff in E'. apply Qmult_le_l in E'; [|assumption].
    apply Qle_bool_iff in E'. congruence.
Qed.

Lemma amplify_fmax k x y :
  0 < k -> amplify k (fmax x y) = fmax (amplify k x) (amplify k y).
Proof.
  intros Hk. destruct x as [p| | |], y as [q| | |]; simpl; try reflexivity.
  rewrite Qle_bool_scale by assumption.
  destruct (Qle_bool p q); reflexivity.
Qed.

Lemma amplify_fold k l x :
  0 < k ->
  fold_left fmax (map (amplify k) l) (amplify k x)
  = amplify k (fold_left fmax l x).
Proof.
  intros Hk. revert x. induction l as [|y l IH]; intros x; simpl;
    [reflexivity|].
  rewrite <- amplify_fmax by assumption. apply IH.
Qed.

Lemma Qle_bool_eq p p' q q' :
  p == p' -> q == q' -> Qle_bool p q = Qle_bool p' q'.
Proof.
  intros Ep Eq. destruct (Qle_bool p' q') eqn:E.
  - apply Qle_bool_iff. apply Qle_bool_iff in E. lra.
  - destruct (Qle_bool p q) eqn:E'; [|reflexivity].
    apply Qle_bool_iff in E'.
    assert (p' <= q') as L by lra. apply Qle_bool_iff in L. congruence.
Qed.

Lemma fmax_sample_eq x x' y y' :
  sample_eq x x' -> sample_eq y y' -> sample_eq (fmax x y) (fmax x' y').
Proof.
  destruct x as [p| | |], x' as [p'| | |]; simpl; try contradiction;
    destruct y as [q| | |], y' as [q'| | |]; simpl; try contradiction;
    try tauto.
  intros Ep Eq. rewrite (Qle_bool_eq p p' q q' Ep Eq).
  destruct (Qle_bool p' q'); simpl; assumption.
Qed.

Lemma fold_fmax_sample_eq l l' x x' :
  Forall2 sample_eq l l' -> sample_eq x x' ->
  sample_eq (fold_left fmax l x) (fold_left fmax l' x').
Proof.
  intros Hl. revert x x'.
  induction Hl as [|y y' l l' Hy _ IH]; intros x x' Hx; simpl;
    [exact Hx|].
  apply IH. apply fmax_sample_eq; assumption.
Qed.

Lemma fabs_amplify k x :
  0 < k -> sample_eq (fabs (amplify k x)) (amplify k (fabs x)).
Proof.
  intros Hk. destruct x as [q| | |]; try exact I.
  change (Qabs (k * q) == k * Qabs q).
  rewrite Qabs_Qmult, (Qabs_pos k) by lra. reflexivity.
Qed.

Lemma fabs_amplify_all k wav :
  0 < k ->
  Forall2 sample_eq (map fabs (map (amplify k) wav))
                    (map (amplify k) (map fabs wav)).
Proof.
  intros Hk. induction wav as [|y wav IH]; simpl; constructor.
  - apply fabs_amplify. assumption.
  - exact IH.
Qed.

(** The peak of the louder waveform is [k] times the peak. *)
Lemma max_abs_amplify k wav m :
  0 < k -> max (map fabs wav) = Ok (Fin m) ->
  exists mk, max (map fabs (map (amplify k) wav)) = Ok (Fin mk)
             /\ mk == k * m.
Proof.
  intros Hk Hmax. destruct wav as [|x wav]; [discriminate|].
  simpl in *. injection Hmax as Hmax.
  pose proof (fold_fmax_sample_eq
                (map fabs (map (amplify k) wav))
                (map (amplify k) (map fabs wav))
                (fabs (amplify k x)) (amplify k (fabs x))
                (fabs_amplify_all k wav Hk) (fabs_amplify k x Hk)) as E.
  rewrite amplify_fold, Hmax in E by assumption. simpl in E.
  destruct (fold_left fmax (map fabs (map (amplify k) wav))
                      (fabs (amplify k x))) as [mk| | |];
    try contradiction.
  exists mk. split; [reflexivity|exact E].
Qed.

(** X7.  Rescaling removes the gain of the recording: a waveform of
    numbers with a peak [m > 0] and the same waveform [k > 0] times louder
    are rescaled to the same samples. *)
Theorem rescale_gain_invariant (k : Q) (wav : ndarray) (m : Q) :
  0 < k -> max (map fabs wav) = Ok (Fin m) -> 0 < m ->
  exists out out',
    rescale wav = Ok out /\
    rescale (map (amplify k) wav) = Ok out' /\
    Forall2 sample_eq out out'.
Proof.
  intros Hk Hmax Hm.
  destruct (max_abs_amplify k wav m Hk Hmax) as (mk & Hmax' & Emk).
  pose proof (max_abs_fin wav m Hmax) as [_ Hall].
  unfold rescale. rewrite Hmax, Hmax'.
  eexists. eexists. split; [reflexivity|]. split; [reflexivity|].
  assert (0 < mk) as Hmk by (rewrite Emk; apply Qmult_lt_0_compat; lra).
  clear Hmax Hmax'.
  induction Hall as [|x wav (q & -> & Hq) _ IH]; simpl; constructor;
    [|exact IH].
  rewrite (is_zero_pos m Hm), (is_zero_pos mk Hmk). simpl.
  apply rnd_proper.
  assert (k * q / mk == q / m) as E.
  { rewrite Emk. field. split; lra. }
  rewrite (rnd_proper _ _ E). reflexivity.
Qed.

End RescaleGain.

Lemma rescale_gain_invariant_witness :
  exists out out',
    @Np.rescale exact_arithmetic wav_1 = Ok out /\
    @Np.rescale exact_arithmetic (map (amplify 3) wav_1) = Ok out' /\
    Forall2 sample_eq out out'.
Proof.
  apply (@rescale_gain_invariant exact_arithmetic 3%Q wav_1 2%Q);
    reflexivity.
Defined.

(** ** One utterance and the files *)

Section ProcessMore.
Context `{Rounding} `{Audio} `{HParams} `{Disk}.

(** An utterance changes no file, and then returns no record; or writes
    its spectrogram file and raises what the save of the mel spectrogram
    raises; or writes its two files, and then returns its record whose
    frame count is within the limit.  Which of the three does not depend
    on the files. *)
Lemma process_cases out_dir index wav_path pinyin :
  (exists r, (forall rec, r <> Ok (Some rec)) /\
     forall fs,
       _process_utterance out_dir index wav_path pinyin fs = (r, fs)) \/
  (exists e spec,
     save_error (spectrogram_path out_dir index) = None /\
     save_error (mel_path out_dir index) = Some e /\
     forall fs,
       _process_utterance out_dir index wav_path pinyin fs =
       (Raised e, <[spectrogram_path out_dir index := transposed spec]> fs)) \/
  (exists spec mel, (shape_1 spec <= max_frame_num)%Z /\
     forall fs,
       _process_utterance out_dir index wav_path pinyin fs =
       (Ok (Some (spectrogram_filename index, mel_filename index,
                  shape_1 spec, pinyin)),
        <[mel_path out_dir index := transposed mel]>
          (<[spectrogram_path out_dir index := transposed spec]> fs))).
Proof.
  unfold spectrogram_path, mel_path.
  destruct (load_wav wav_path) as [wav0|e] eqn:Hload.
  - destruct (Np.rescale wav0) as [wav1|e] eqn:Hres.
    + pose proof (fun fs => process_loaded out_dir index wav_path pinyin
                              wav0 wav1 fs Hload Hres) as E.
      cbv beta iota zeta in E.
      destruct (max_frame_num
                <? shape_1 (astype_float32
                              (spectrogram (trim_silence wav1))))%Z eqn:En.
      * left. exists (Ok None). split; [discriminate|exact E].
      * destruct (save_error (join out_dir [spectrogram_filename index]))
          as [e|] eqn:Es.
        { left. exists (Raised e). split; [discriminate|exact E]. }
        destruct (save_error (join out_dir [mel_filename index]))
          as [e|] eqn:Em.
        { right. left. eexists. eexists. split; [reflexivity|].
          split; [reflexivity|exact E]. }
        right. right. eexists. eexists.
        split; [apply Z.ltb_ge; exact En|exact E].
    + left. exists (Raised e). split; [discriminate|]. intros fs.
      apply (process_rescale_raises _ _ _ _ _ _ _ Hload Hres).
  - left. exists (Raised e). split; [discriminate|]. intros fs.
    apply (process_load_raises _ _ _ _ _ _ Hload).
Qed.

Lemma spectrogram_path_inj out_dir i j :
  spectrogram_path out_dir i = spectrogram_path out_dir j -> i = j.
Proof.
  unfold spectrogram_path.
  rewrite !join2_relative by apply spectrogram_filename_relative.
  intros E. apply app_inv_head in E. apply spectrogram_filename_inj, E.
Qed.

Lemma mel_path_inj out_dir i j :
  mel_path out_dir i = mel_path out_dir j -> i = j.
Proof.
  unfold mel_path.
  rewrite !join2_relative by apply mel_filename_relative.
  intros E. apply app_inv_head in E. apply mel_filename_inj, E.
Qed.

(** X8.  An audio file without samples makes [_process_utterance] raise
    [ValueError] (the peak of an empty array) and write nothing. *)
Theorem process_empty_waveform (out_dir : str) (index : Z)
    (wav_path pinyin : str) (fs : gmap str array2) :
  load_wav wav_path = Ok [] ->
  _process_utterance out_dir index wav_path pinyin fs
  = (Raised ValueError, fs).
Proof.
  intros Hload.
  apply (process_rescale_raises _ _ _ _ [] _ _ Hload). reflexivity.
Qed.


(** X10.  A record that [_process_utterance] returns carries the pinyin
    it was given, unchanged, and a frame count that is at most
    [max_frame_num] and is the frame count of the spectrogram whose
    transpose is saved under the record's spectrogram name. *)
Theorem process_record_content (out_dir : str) (index : Z)
    (wav_path pinyin : str) (fs fs' : gmap str array2)
    (sf mf : str) (n : Z) (text : str) :
  _process_utterance out_dir index wav_path pinyin fs
  = (Ok (Some (sf, mf, n, text)), fs') ->
  text = pinyin /\ (n <= max_frame_num)%Z /\
  exists spec, n = shape_1 spec /\
               fs' !! join out_dir [sf] = Some (transposed spec).
Proof.
  destruct (process_cases out_dir index wav_path pinyin)
    as [(r & Hr & E)|[(e & spec & _ & _ & E)|(spec & mel & Hle & E)]];
    rewrite E; intros E'.
  - injection E' as -> _. exfalso. exact (Hr _ eq_refl).
  - discriminate.
  - injection E' as <- <- <- <- <-. split; [reflexivity|].
    split; [exact Hle|]. exists spec. split; [reflexivity|].
    fold (spectrogram_path out_dir index).
    rewrite lookup_insert_ne
      by (intros E'; exact (paths_differ _ _ _ (eq_sym E'))).
    apply lookup_insert_eq.
Qed.

(** X11.  Processing an utterance a second time changes nothing: the
    same outcome, and the files as the first time left them. *)
Theorem process_twice (out_dir : str) (index : Z)
    (wav_path pinyin : str) (fs : gmap str array2) :
  _process_utterance out_dir index wav_path pinyin
    (snd (_process_utterance out_dir index wav_path pinyin fs))
  = _process_utterance out_dir index wav_path pinyin fs.
Proof.
  destruct (process_cases out_dir index wav_path pinyin)
    as [(r & Hr & E)|[(e & spec & _ & _ & E)|(spec & mel & _ & E)]];
    rewrite !E; simpl.
  - reflexivity.
  - rewrite insert_insert_eq. reflexivity.
  - f_equal.
    rewrite (insert_insert_ne _ (spectrogram_path out_dir index)
                              (mel_path out_dir index))
      by apply paths_differ.
    rewrite !insert_insert_eq. reflexivity.
Qed.

(** X12.  Two utterances with different indices do not get in each
    other's way: run in either order in the same output directory they
    leave the same files, and each returns what it returns alone.  So the
    files do not depend on the order in which the pool runs the tasks. *)
Theorem process_commute (out_dir : str) (i j : Z)
    (wav_i pinyin_i wav_j pinyin_j : str) (fs : gmap str array2) :
  i <> j ->
  let Pi := _process_utterance out_dir i wav_i pinyin_i in
  let Pj := _process_utterance out_dir j wav_j pinyin_j in
  snd (Pj (snd (Pi fs))) = snd (Pi (snd (Pj fs))) /\
  fst (Pj (snd (Pi fs))) = fst (Pj fs) /\
  fst (Pi (snd (Pj fs))) = fst (Pi fs).
Proof.
  intros Hij Pi Pj. unfold Pi, Pj.
  split; [|split; apply process_outcome_files].
  assert (spectrogram_path out_dir i <> spectrogram_path out_dir j) as Hss
    by (intros E; apply Hij, (spectrogram_path_inj _ _ _ E)).
  assert (mel_path out_dir i <> mel_path out_dir j) as Hmm
    by (intros E; apply Hij, (mel_path_inj _ _ _ E)).
  pose proof (paths_differ out_dir i j : spectrogram_path out_dir i
                                         <> mel_path out_dir j) as Hsm.
  pose proof (paths_differ out_dir j i : spectrogram_path out_dir j
                                         <> mel_path out_dir i) as Hms.
  destruct (process_cases out_dir i wav_i pinyin_i)
    as [(ri & _ & Ei)|[(ei & si & _ & _ & Ei)|(si & mi & _ & Ei)]];
    destruct (process_cases out_dir j wav_j pinyin_j)
      as [(rj & _ & Ej)|[(ej & sj & _ & _ & Ej)|(sj & mj & _ & Ej)]];
    rewrite ?Ei, ?Ej; simpl; rewrite ?Ei, ?Ej; simpl; try reflexivity.
  - apply insert_insert_ne. congruence.
  - rewrite (insert_insert_ne _ (spectrogram_path out_dir j)
                              (spectrogram_path out_dir i)) by congruence.
    rewrite (insert_insert_ne _ (mel_path out_dir j)
                              (spectrogram_path out_dir i)) by congruence.
    reflexivity.
  - rewrite (insert_insert_ne _ (spectrogram_path out_dir j)
                              (mel_path out_dir i)) by congruence.
    rewrite (insert_insert_ne _ (spectrogram_path out_dir j)
                              (spectrogram_path out_dir i)) by congruence.
    reflexivity.
  - rewrite (insert_insert_ne _ (spectrogram_path out_dir j)
                              (mel_path out_dir i)) by congruence.
    rewrite (insert_insert_ne _ (spectrogram_path out_dir j)
                              (spectrogram_path out_dir i)) by congruence.
    rewrite (insert_insert_ne _ (mel_path out_dir j)
                              (mel_path out_dir i)) by congruence.
    rewrite (insert_insert_ne _ (mel_path out_dir j)
                              (spectrogram_path out_dir i)) by congruence.
    reflexivity.
Qed.

End ProcessMore.

(** ** The whole run, beyond the returned list *)

Section BuildMore.
Context `{Rounding} `{Audio} `{HParams} `{Disk} `{TextFiles}.

Lemma collect_returns futures l :
  collect futures = Ok l ->
  l = omap (fun fut => kept (future_outcome fut)) futures.
Proof.
  revert l. induction futures as [|fut futures IH]; simpl; intros l E.
  - injection E as <-. reflexivity.
  - unfold future_result in E.
    destruct (future_outcome fut) as [[rec|]|e]; simpl.
    + destruct (collect futures) as [l'|e]; [|discriminate].
      injection E as <-. rewrite (IH l' eq_refl). reflexivity.
    + apply IH. exact E.
    + discriminate.
Qed.

(** What a run that returns has done. *)
Lemma build_from_path_returns in_dir out_dir num_workers tqdm fs l fs' :
  (forall x, tqdm x = x) ->
  build_from_path in_dir out_dir num_workers tqdm fs = (Ok l, fs') ->
  exists trn_ids,
    parse_trn (trn_file_of in_dir) = Ok trn_ids /\
    l = omap (fun fut => kept (future_outcome fut))
             (imap (fun k u => future_of (task_of in_dir out_dir
                                                  (1 + Z.of_nat k) u))
                   trn_ids) /\
    fs' = snd (submit_loop in_dir out_dir trn_ids [] 1 fs).
Proof.
  intros Htqdm. unfold build_from_path, bind, lift, ProcessPoolExecutor.
  destruct (num_workers <=? 0)%Z; [discriminate|].
  fold (trn_file_of in_dir).
  destruct (parse_trn (trn_file_of in_dir)) as [trn_ids|e]; [|discriminate].
  destruct (submit_loop_futures in_dir out_dir trn_ids [] 1%Z fs)
    as [fs2 E].
  rewrite E. simpl. rewrite Htqdm. intros E'. injection E' as Hc <-.
  exists trn_ids. split; [reflexivity|]. split; [|rewrite E; reflexivity].
  apply collect_returns. exact Hc.
Qed.

(** The records kept of a list of utterances sit at increasing
    positions of the list. *)
Lemma omap_imap_positions {A B C} (f : nat -> A -> B) (h : B -> option C)
    (l : list A) :
  exists ks,
    StronglySorted lt ks /\
    Forall2 (fun k c => exists a, l !! k = Some a /\ h (f k a) = Some c)
            ks (omap h (imap f l)).
Proof.
  revert f. induction l as [|a l IH]; intros f.
  - exists []. split; constructor.
  - destruct (IH (f ∘ S)) as (ks & Hsorted & Hall).
    assert (StronglySorted lt (S <$> ks)) as Hsorted'.
    { clear Hall. induction Hsorted as [|k ks _ IHs Hk]; simpl;
        constructor; [exact IHs|].
      rewrite Forall_fmap. eapply Forall_impl; [exact Hk|].
      intros y Hy. simpl. lia. }
    assert (Forall2 (fun k c => exists a', (a :: l) !! k = Some a'
                                           /\ h (f k a') = Some c)
                    (S <$> ks) (omap h (imap (f ∘ S) l))) as Hall'.
    { apply Forall2_fmap_l. eapply Forall2_impl; [exact Hall|].
      intros k c (a' & Hk & Hc). exists a'. auto. }
    rewrite imap_cons. simpl omap.
    destruct (h (f 0%nat a)) as [c|] eqn:E.
    + exists (0%nat :: (S <$> ks)). split.
      * constructor; [exact Hsorted'|].
        rewrite Forall_fmap. apply Forall_forall. intros y _. simpl. lia.
      * constructor; [|exact Hall']. exists a. auto.
    + exists (S <$> ks). auto.
Qed.

Lemma StronglySorted_lt_NoDup (ks : list nat) :
  StronglySorted lt ks -> NoDup ks.
Proof.
  induction 1 as [|k ks _ IH Hk]; constructor; [|exact IH].
  intros Hin. rewrite Forall_forall in Hk. specialize (Hk _ Hin). lia.
Qed.

(** A kept outcome is the record of its index. *)
Lemma kept_record in_dir out_dir index u rec :
  kept (future_outcome (future_of (task_of in_dir out_dir index u)))
  = Some rec ->
  exists n, rec = (spectrogram_filename index, mel_filename index, n,
                   snd u)
            /\ (n <= max_frame_num)%Z.
Proof.
  simpl. unfold outcome_of, call. simpl.
  destruct (process_cases out_dir index (wav_file_of in_dir (fst u))
                          (snd u))
    as [(r & Hr & E)|[(e & spec & _ & _ & E)|(spec & mel & Hle & E)]];
    rewrite E; simpl.
  - destruct r as [[rec'|]|e]; try discriminate.
    exfalso. exact (Hr rec' eq_refl).
  - discriminate.
  - intros E'. injection E' as <-. eauto.
Qed.

(** X13.  When [build_from_path] returns a list, its records belong to
    utterances at increasing positions of the transcription file: the
    record of position k carries the two file names of index [1 + k], the
    pinyin of that utterance and a frame count of at most [max_frame_num].
    So the list is no longer than the transcription, and no two records
    share a spectrogram name. *)
Theorem build_from_path_records (in_dir out_dir : str) (num_workers : Z)
    (tqdm : list future -> list future) (fs fs' : gmap str array2)
    (l : list record) :
  (forall x, tqdm x = x) ->
  build_from_path in_dir out_dir num_workers tqdm fs = (Ok l, fs') ->
  exists trn_ids ks,
    parse_trn (trn_file_of in_dir) = Ok trn_ids /\
    StronglySorted lt ks /\
    Forall2 (fun k rec =>
               exists (idx pinyin : str) n,
                 trn_ids !! k = Some (idx, pinyin) /\
                 rec = (spectrogram_filename (1 + Z.of_nat k),
                        mel_filename (1 + Z.of_nat k), n, pinyin) /\
                 (n <= max_frame_num)%Z)
            ks l /\
    (length l <= length trn_ids)%nat /\
    NoDup (map (fun rec : record => fst (fst (fst rec))) l).
Proof.
  intros Htqdm Hbuild.
  destruct (build_from_path_returns _ _ _ _ _ _ _ Htqdm Hbuild)
    as (trn_ids & Hparse & -> & _).
  destruct (omap_imap_positions
              (fun k u => future_of (task_of in_dir out_dir
                                             (1 + Z.of_nat k) u))
              (fun fut => kept (future_outcome fut)) trn_ids)
    as (ks & Hsorted & Hall).
  set (l := omap _ (imap _ trn_ids)) in *.
  assert (Forall2 (fun k rec =>
               exists (idx pinyin : str) n,
                 trn_ids !! k = Some (idx, pinyin) /\
                 rec = (spectrogram_filename (1 + Z.of_nat k),
                        mel_filename (1 + Z.of_nat k), n, pinyin) /\
                 (n <= max_frame_num)%Z) ks l) as Hrecs.
  { eapply Forall2_impl; [exact Hall|].
    intros k rec ([idx pinyin] & Hk & Hkept).
    apply kept_record in Hkept as (n & -> & Hn).
    exists idx, pinyin, n. auto. }
  assert (NoDup ks) as Hnodup by (apply StronglySorted_lt_NoDup, Hsorted).
  exists trn_ids, ks. split; [exact Hparse|]. split; [exact Hsorted|].
  split; [exact Hrecs|]. split.
  - assert (length ks = length l) as EL
      by (eapply Forall2_length; exact Hrecs).
    rewrite <- EL.
    (* increasing positions below the length *)
    assert (Forall (fun k => (k < length trn_ids)%nat) ks) as Hlt.
    { clear -Hrecs. induction Hrecs as [|k rec ks l Hk _ IH];
        constructor; [|exact IH].
      destruct Hk as (idx & pinyin & n & Hk & _).
      apply lookup_lt_Some in Hk. exact Hk. }
    clear -Hnodup Hlt.
    assert (ks ⊆ seq 0 (length trn_ids)) as Hsub.
    { intros k Hk. rewrite Forall_forall in Hlt.
      apply elem_of_seq. specialize (Hlt _ Hk). lia. }
    pose proof (submseteq_length _ _ (NoDup_submseteq _ _ Hnodup Hsub)) as L.
    rewrite length_seq in L. exact L.
  - assert (map (fun rec : record => fst (fst (fst rec))) l
            = map (fun k => spectrogram_filename (1 + Z.of_nat k)) ks)
      as ->.
    { clear -Hrecs. induction Hrecs as [|k rec ks l Hk _ IH]; simpl;
        [reflexivity|].
      destruct Hk as (idx & pinyin & n & _ & -> & _). simpl.
      rewrite IH. reflexivity. }
    apply (NoDup_fmap_2_strong
             (fun k => spectrogram_filename (1 + Z.of_nat k))).
    + intros j k _ _ E. apply spectrogram_filename_inj in E. lia.
    + exact Hnodup.
Qed.

End BuildMore.

Section BuildFiles.
Context `{Rounding} `{Audio} `{HParams} `{Disk} `{TextFiles}.

(** A task keeps the files that are there, touches only the two paths of
    its index, and leaves both files behind when it returns a record. *)
Lemma call_files in_dir out_dir index u fs :
  let fs' := snd (call (task_of in_dir out_dir index u) fs) in
  (forall p, is_Some (fs !! p) -> is_Some (fs' !! p)) /\
  (forall p, p <> spectrogram_path out_dir index ->
             p <> mel_path out_dir index -> fs' !! p = fs !! p) /\
  (forall rec,
     outcome_of (task_of in_dir out_dir index u) = Ok (Some rec) ->
     is_Some (fs' !! spectrogram_path out_dir index) /\
     is_Some (fs' !! mel_path out_dir index)).
Proof.
  unfold outcome_of, call. simpl.
  destruct (process_cases out_dir index (wav_file_of in_dir (fst u))
                          (snd u))
    as [(r & Hr & E)|[(e & spec & _ & _ & E)|(spec & mel & Hle & E)]];
    rewrite !E; simpl.
  - split; [auto|]. split; [auto|].
    intros rec Hrec. exfalso. exact (Hr rec Hrec).
  - split; [|split].
    + intros p Hp. apply lookup_insert_is_Some'. right. exact Hp.
    + intros p Hp1 _.
      apply lookup_insert_ne. intros E'. apply Hp1. symmetry. exact E'.
    + intros rec Hrec. discriminate Hrec.
  - split; [|split].
    + intros p Hp. apply lookup_insert_is_Some'. right.
      apply lookup_insert_is_Some'. right. exact Hp.
    + intros p Hp1 Hp2.
      rewrite lookup_insert_ne by (intros E'; apply Hp2; symmetry; exact E').
      rewrite lookup_insert_ne by (intros E'; apply Hp1; symmetry; exact E').
      reflexivity.
    + intros rec _. split.
      * apply lookup_insert_is_Some'. right.
        rewrite lookup_insert_eq. eauto.
      * rewrite lookup_insert_eq. eauto.
Qed.

Lemma submit_files t fs : snd (submit t fs) = snd (call t fs).
Proof. unfold submit. destruct (call t fs). reflexivity. Qed.

Lemma submit_loop_files in_dir out_dir trn_ids :
  forall futures index fs,
  let fs' := snd (submit_loop in_dir out_dir trn_ids futures index fs) in
  (forall p, is_Some (fs !! p) -> is_Some (fs' !! p)) /\
  (forall p,
     (forall k, (k < length trn_ids)%nat ->
        p <> spectrogram_path out_dir (index + Z.of_nat k) /\
        p <> mel_path out_dir (index + Z.of_nat k)) ->
     fs' !! p = fs !! p) /\
  (forall k u rec,
     trn_ids !! k = Some u ->
     outcome_of (task_of in_dir out_dir (index + Z.of_nat k) u)
     = Ok (Some rec) ->
     is_Some (fs' !! spectrogram_path out_dir (index + Z.of_nat k)) /\
     is_Some (fs' !! mel_path out_dir (index + Z.of_nat k))).
Proof.
  induction trn_ids as [|u trn_ids IH]; intros futures index fs.
  - simpl. split; [auto|]. split; [auto|]. intros k u rec Hk.
    discriminate.
  - rewrite submit_loop_cons. unfold bind.
    destruct (submit_future (task_of in_dir out_dir index u) fs)
      as [fs1 E1].
    pose proof (submit_files (task_of in_dir out_dir index u) fs) as Efs.
    rewrite E1 in *. simpl in Efs. subst fs1.
    destruct (call_files in_dir out_dir index u fs) as (K1 & K2 & K3).
    destruct (IH (futures ++ [future_of (task_of in_dir out_dir index u)])
                 (index + 1)%Z
                 (snd (call (task_of in_dir out_dir index u) fs)))
      as (I1 & I2 & I3).
    split; [|split].
    + intros p Hp. apply I1, K1, Hp.
    + intros p Hp. rewrite I2.
      * apply K2; replace index with (index + Z.of_nat 0)%Z by lia;
          apply (Hp 0%nat); simpl; lia.
      * intros k Hk.
        replace (index + 1 + Z.of_nat k)%Z
          with (index + Z.of_nat (S k))%Z by lia.
        apply Hp. simpl. lia.
    + intros k v rec Hk Hrec. destruct k as [|k].
      * simpl in Hk. injection Hk as <-.
        replace (index + Z.of_nat 0)%Z with index in * by lia.
        destruct (K3 rec Hrec) as [S1 S2]. split; apply I1; assumption.
      * simpl in Hk.
        replace (index + Z.of_nat (S k))%Z
          with (index + 1 + Z.of_nat k)%Z in * by lia.
        exact (I3 k v rec Hk Hrec).
Qed.

(** X14.  After a run that returns, both files of every returned record
    are in the output directory; every file that was there before is
    still there; and a path that is not the spectrogram or mel path of an
    index holds what it held before. *)
Theorem build_from_path_files (in_dir out_dir : str) (num_workers : Z)
    (tqdm : list future -> list future) (fs fs' : gmap str array2)
    (l : list record) :
  (forall x, tqdm x = x) ->
  build_from_path in_dir out_dir num_workers tqdm fs = (Ok l, fs') ->
  (forall (sf mf : str) n (text : str), (sf, mf, n, text) ∈ l ->
     is_Some (fs' !! join out_dir [sf]) /\
     is_Some (fs' !! join out_dir [mf])) /\
  (forall p, is_Some (fs !! p) -> is_Some (fs' !! p)) /\
  (forall p,
     (forall i, p <> spectrogram_path out_dir i /\ p <> mel_path out_dir i) ->
     fs' !! p = fs !! p).
Proof.
  intros Htqdm Hbuild.
  destruct (build_from_path_returns _ _ _ _ _ _ _ Htqdm Hbuild)
    as (trn_ids & Hparse & -> & ->).
  destruct (submit_loop_files in_dir out_dir trn_ids [] 1%Z fs)
    as (I1 & I2 & I3).
  split; [|split; [exact I1|]].
  - intros sf mf n text Hin.
    apply list_elem_of_omap in Hin as (fut & Hfut & Hkept).
    apply list_elem_of_lookup_1 in Hfut as [k Hk].
    rewrite list_lookup_imap in Hk.
    destruct (trn_ids !! k) as [u|] eqn:Eu; [|discriminate].
    simpl in Hk. injection Hk as <-.
    pose proof Hkept as Hrec.
    apply kept_record in Hrec as (n' & Erec & _).
    injection Erec as -> -> _ _.
    apply (I3 k u (spectrogram_filename (1 + Z.of_nat k),
                   mel_filename (1 + Z.of_nat k), n, text) Eu).
    simpl in Hkept. destruct (outcome_of _) as [[rec|]|e];
      try discriminate.
    injection Hkept as ->. reflexivity.
  - intros p Hp. apply I2. intros k _. apply Hp.
Qed.

(** X15.  A transcription file that is empty, or starts with a blank
    line, parses to no utterance, and the run returns the empty list and
    writes no file. *)
Theorem build_from_path_empty_transcription (in_dir out_dir : str)
    (num_workers : Z) (tqdm : list future -> list future)
    (fs : gmap str array2) (text : str) :
  (0 < num_workers)%Z -> tqdm [] = [] ->
  open_text (trn_file_of in_dir) = Ok text ->
  strip (fst (Trn.readline text)) = [] ->
  parse_trn (trn_file_of in_dir) = Ok [] /\
  build_from_path in_dir out_dir num_workers tqdm fs = (Ok [], fs).
Proof.
  intros Hworkers Htqdm Hopen Hblank.
  assert (parse_trn (trn_file_of in_dir) = Ok []) as Hparse.
  { rewrite (parse_trn_open _ _ Hopen). unfold Trn.parse_text.
    rewrite Hblank. apply Trn.parse_loop_equation_1. }
  split; [exact Hparse|].
  unfold build_from_path, bind, lift, ProcessPoolExecutor.
  apply Z.leb_gt in Hworkers. rewrite Hworkers.
  fold (trn_file_of in_dir). rewrite Hparse. simpl. rewrite Htqdm.
  reflexivity.
Qed.

End BuildFiles.

(** ** Paths and names *)

Section PathMore.

Lemma startswith_app c s t :
  s <> [] -> startswith c (s ++ t) = startswith c s.
Proof. destruct s; [congruence|reflexivity]. Qed.

(** X16.  The audio path of an identifier: an identifier that starts
    with a slash gives an absolute path and the input directory is
    dropped; any other identifier gives the file [<idx>.wav] in the
    directory [Wave] of the input directory. *)
Theorem wav_file_of_cases (in_dir idx : str) :
  (startswith SLASH idx = true ->
   wav_file_of in_dir idx = idx ++ lit ".wav") /\
  (startswith SLASH idx = false ->
   wav_file_of in_dir idx
   = join_prefix in_dir ++ lit "Wave/" ++ idx ++ lit ".wav").
Proof.
  unfold wav_file_of, join. simpl fold_left.
  assert (join2 in_dir (lit "Wave") = join_prefix in_dir ++ lit "Wave")
    as -> by (apply (join2_relative in_dir (lit "Wave")); reflexivity).
  split; intros Hs.
  - unfold join2. rewrite startswith_app, Hs; [reflexivity|].
    intros ->. discriminate.
  - unfold join2.
    assert (startswith SLASH (idx ++ lit ".wav") = false) as ->.
    { destruct idx; [reflexivity|]. exact Hs. }
    assert (endswith SLASH (join_prefix in_dir ++ lit "Wave") = false)
      as He.
    { unfold endswith. rewrite last_app. reflexivity. }
    destruct (join_prefix in_dir ++ lit "Wave") as [|c x] eqn:E.
    + destruct (join_prefix in_dir); discriminate.
    + rewrite He, <- E, <- !app_assoc. reflexivity.
Qed.

End PathMore.

Section NameOrder.
Import Fmt.

Lemma decimal_value_fold a acc :
  fold_left (fun acc c => 10 * acc + (c - ZERO)) a acc
  = acc * 10 ^ N.of_nat (length a) + decimal_value a.
Proof.
  unfold decimal_value. revert acc.
  induction a as [|c a IH]; intros acc.
  - simpl. lia.
  - cbn [fold_left length]. rewrite IH, (IH (10 * 0 + (c - ZERO))).
    rewrite Nat2N.inj_succ, N.pow_succ_r'. lia.
Qed.

Lemma decimal_value_cons c a :
  decimal_value (c :: a)
  = (c - ZERO) * 10 ^ N.of_nat (length a) + decimal_value a.
Proof.
  unfold decimal_value at 1. cbn [fold_left].
  rewrite decimal_value_fold, N.mul_0_r, N.add_0_l. reflexivity.
Qed.

Lemma decimal_value_bound a :
  Forall is_digit a -> decimal_value a < 10 ^ N.of_nat (length a).
Proof.
  induction 1 as [|c a Hc _ IH].
  - reflexivity.
  - rewrite decimal_value_cons. cbn [length].
    rewrite Nat2N.inj_succ, N.pow_succ_r'.
    unfold is_digit, ZERO in *.
    set (X := 10 ^ N.of_nat (length a)) in *. clearbody X.
    assert (c - 48 <= 9) by lia. nia.
Qed.

(** Digit strings of one length compare as their numbers do. *)
Lemma str_lt_digits a b s t :
  length a = length b -> Forall is_digit a -> Forall is_digit b ->
  decimal_value a < decimal_value b ->
  str_lt (a ++ s) (b ++ t) = true.
Proof.
  revert b. induction a as [|c a IH]; intros [|d b] Hlen Ha Hb Hlt;
    try discriminate.
  apply Forall_cons in Ha as [Hc Ha]. apply Forall_cons in Hb as [Hd Hb].
  injection Hlen as Hlen. cbn [app str_lt].
  rewrite !decimal_value_cons, Hlen in Hlt.
  pose proof (decimal_value_bound a Ha) as Ba.
  pose proof (decimal_value_bound b Hb) as Bb.
  rewrite Hlen in Ba.
  unfold is_digit, ZERO in *.
  set (X := 10 ^ N.of_nat (length b)) in *. clearbody X.
  destruct (N.ltb_spec c d) as [Hcd|Hcd]; [reflexivity|].
  destruct (N.eqb_spec c d) as [->|Hne].
  - simpl. apply IH; [assumption|assumption|assumption|lia].
  - exfalso.
    assert (d - 48 + 1 <= c - 48) as Hstep by lia.
    set (cx := c - 48) in *. set (dx := d - 48) in *.
    clearbody cx dx. nia.
Qed.

Lemma str_lt_prefix p a b : str_lt (p ++ a) (p ++ b) = str_lt a b.
Proof.
  induction p as [|c p IH]; [reflexivity|].
  destruct a as [|x a], b as [|y b]; cbn [app str_lt];
    rewrite ?N.ltb_irrefl, ?N.eqb_refl; simpl;
    try (rewrite IH; reflexivity).
Qed.

Lemma fmt_05d_small k :
  (0 <= k <= 99999)%Z ->
  fmt_05d k = zfill 5 (digits (Z.to_N k))
  /\ length (zfill 5 (digits (Z.to_N k))) = 5%nat.
Proof.
  intros Hk. split.
  - unfold fmt_05d. destruct (Z.ltb_spec k 0); [lia|reflexivity].
  - rewrite zfill_length.
    pose proof (digits_length (Z.to_N k) 5 ltac:(lia)) as L.
    assert (Z.to_N k < 10 ^ N.of_nat 5) as Hlt by (simpl; lia).
    specialize (L Hlt). lia.
Qed.

(** X17.  Up to index 99999 the zero padding does its work: the names of
    two indices have the same length, and the name of the smaller index
    comes first in the order of strings, for the spectrogram names and
    for the mel names. *)
Theorem filenames_sorted_by_index (j k : Z) :
  (0 <= j)%Z -> (j < k)%Z -> (k <= 99999)%Z ->
  length (spectrogram_filename j) = length (spectrogram_filename k) /\
  length (mel_filename j) = length (mel_filename k) /\
  str_lt (spectrogram_filename j) (spectrogram_filename k) = true /\
  str_lt (mel_filename j) (mel_filename k) = true.
Proof.
  intros Hj Hjk Hk.
  destruct (fmt_05d_small j ltac:(lia)) as [Ej Lj].
  destruct (fmt_05d_small k ltac:(lia)) as [Ek Lk].
  unfold spectrogram_filename, mel_filename. rewrite Ej, Ek.
  rewrite !length_app, Lj, Lk.
  split; [reflexivity|]. split; [reflexivity|].
  rewrite !str_lt_prefix.
  split; apply str_lt_digits;
    try apply zfill_are_digits; try congruence;
    rewrite !decimal_value_zfill; lia.
Qed.

End NameOrder.

Example filenames_order_breaks_ex :
  str_lt (spectrogram_filename 100000) (spectrogram_filename 99999) = true.
Proof. reflexivity. Qed.

Lemma filenames_sorted_by_index_witness :
  str_lt (lit "biaobei48000-spec-00009.npy")
         (lit "biaobei48000-spec-00010.npy") = true.
Proof.
  apply (filenames_sorted_by_index 9 10); lia.
Defined.

(** ** The further properties on the small corpus *)

Lemma sample_run_returns : sample_run = (Ok [sample_record_2], snd sample_run).
Proof.
  apply injective_projections; [vm_compute; reflexivity|reflexivity].
Defined.

Lemma process_empty_waveform_witness :
  @_process_utterance exact_arithmetic sample_arrays
    (sample_audio [(lit "in/Wave/000009.wav", [])])
    (sample_hparams 1000) sample_disk
    (lit "out") 9 (lit "in/Wave/000009.wav") (lit "jiu3") ∅
  = (Raised ValueError, ∅).
Proof.
  apply (@process_empty_waveform exact_arithmetic sample_arrays
           (sample_audio [(lit "in/Wave/000009.wav", [])])
           (sample_hparams 1000) sample_disk).
  reflexivity.
Defined.

Lemma process_record_content_witness :
  let P := @_process_utterance exact_arithmetic sample_arrays
             (sample_audio sample_wavs) (sample_hparams 1000) sample_disk
             (lit "out") 1 (lit "in/Wave/000001.wav") (lit "ka2 er2 pu3") in
  lit "ka2 er2 pu3" = lit "ka2 er2 pu3" /\ (3 <= 1000)%Z /\
  exists spec : @array2 sample_arrays,
    3%Z = @shape_1 sample_arrays spec /\
    snd (P ∅) !! join (lit "out") [lit "biaobei48000-spec-00001.npy"]
    = Some (@transposed sample_arrays spec).
Proof.
  intros P.
  apply (@process_record_content exact_arithmetic sample_arrays
           (sample_audio sample_wavs) (sample_hparams 1000) sample_disk
           (lit "out") 1%Z (lit "in/Wave/000001.wav") (lit "ka2 er2 pu3")
           ∅ (snd (P ∅)) (lit "biaobei48000-spec-00001.npy")
           (lit "biaobei48000-mel-00001.npy") 3%Z (lit "ka2 er2 pu3")).
  apply injective_projections; [vm_compute; reflexivity|reflexivity].
Defined.

Lemma process_commute_witness :
  let P1 := @_process_utterance exact_arithmetic sample_arrays
              (sample_audio sample_wavs) (sample_hparams 1000) sample_disk
              (lit "out") 1 (lit "in/Wave/000001.wav") (lit "ka2 er2 pu3") in
  let P2 := @_process_utterance exact_arithmetic sample_arrays
              (sample_audio sample_wavs) (sample_hparams 1000) sample_disk
              (lit "out") 2 (lit "in/Wave/000002.wav") (lit "jia2 yu3") in
  snd (P2 (snd (P1 ∅))) = snd (P1 (snd (P2 ∅))) /\
  fst (P2 (snd (P1 ∅))) = fst (P2 ∅) /\
  fst (P1 (snd (P2 ∅))) = fst (P1 ∅).
Proof.
  apply (@process_commute exact_arithmetic sample_arrays
           (sample_audio sample_wavs) (sample_hparams 1000) sample_disk
           (lit "out") 1%Z 2%Z).
  discriminate.
Defined.

Lemma build_from_path_records_witness :
  NoDup (map (fun rec : record => fst (fst (fst rec))) [sample_record_2])
  /\ (length [sample_record_2] <= 2)%nat.
Proof.
  destruct (@build_from_path_records exact_arithmetic sample_arrays
              (sample_audio sample_wavs) (sample_hparams 2) sample_disk
              sample_files
              (lit "in") (lit "out") 1%Z (fun l => l) ∅ (snd sample_run)
              [sample_record_2])
    as (trn_ids & ks & Hparse & _ & _ & Hlen & Hnodup).
  - reflexivity.
  - exact sample_run_returns.
  - split; [exact Hnodup|].
    rewrite sample_parse in Hparse. injection Hparse as <-. exact Hlen.
Defined.

Lemma build_from_path_files_witness :
  is_Some (snd sample_run !! lit "out/biaobei48000-spec-00002.npy") /\
  is_Some (snd sample_run !! lit "out/biaobei48000-mel-00002.npy").
Proof.
  apply (proj1 (@build_from_path_files exact_arithmetic sample_arrays
                  (sample_audio sample_wavs) (sample_hparams 2) sample_disk
                  sample_files (lit "in") (lit "out") 1%Z (fun l => l) ∅
                  (snd sample_run) [sample_record_2]
                  (fun l => eq_refl) sample_run_returns)
               (lit "biaobei48000-spec-00002.npy")
               (lit "biaobei48000-mel-00002.npy") 2%Z (lit "jia2 yu3")).
  apply elem_of_cons. left. reflexivity.
Defined.

Lemma build_from_path_empty_transcription_witness :
  @build_from_path exact_arithmetic sample_arrays (sample_audio sample_wavs)
    (sample_hparams 2) sample_disk (one_file sample_path (lit "  " ++ [NL]))
    (lit "in") (lit "out") 1 (fun l => l) ∅ = (Ok [], ∅).
Proof.
  apply (@build_from_path_empty_transcription exact_arithmetic
           sample_arrays (sample_audio sample_wavs)
           (sample_hparams 2) sample_disk
           (one_file sample_path (lit "  " ++ [NL]))
           (lit "in") (lit "out") 1%Z (fun l => l) ∅ (lit "  " ++ [NL]));
    reflexivity.
Defined.
